(** * Apple scheduler backends of the object store

    A shallow embedding of [realm/object-store/util/apple/scheduler.hpp]:
    the reference-counted invocation-queue holder, [RunLoopScheduler] and
    [DispatchQueueScheduler], together with the part of the native
    environment (CoreFoundation run loops and sources, libdispatch queues)
    their member functions call into.

    Native objects live in a store indexed by their handle; a member
    function is a computation over that store which either returns, throws
    a C++ exception, or faults (a dangling handle is dereferenced). *)

From Stdlib Require Import ZArith Lia Ascii.
From stdpp Require Import base option list gmap strings.

Local Open Scope Z_scope.

(** ** Handles and the two scheduler classes *)

(** A native handle or a C++ pointer is a machine address; [nullptr] is 0. *)
Abbreviation ptr := Z.

Definition nullptr : ptr := 0.

(** [class RunLoopScheduler]: private members [m_runloop],
    [m_notify_signal] and the reference [m_queue] to the holder. *)
Record RunLoopScheduler := mkRunLoopScheduler {
  m_runloop : ptr;
  m_notify_signal : ptr;
  m_queue : ptr
}.

(** [class DispatchQueueScheduler]: private members [m_queue] (named
    [m_dispatch_queue] here, the run-loop class owns the name) and the
    block [m_callback], null by default and never assigned in this file. *)
Record DispatchQueueScheduler := mkDispatchQueueScheduler {
  m_dispatch_queue : ptr;
  m_callback : ptr
}.

(** The dynamic type of an object behind a [const Scheduler*]. *)
Inductive Scheduler :=
| SRunLoop (s : RunLoopScheduler)
| SDispatchQueue (s : DispatchQueueScheduler).

(** ** Tasks

    A [util::UniqueFunction<void()>].  Running a task records its
    identifier and then hands each of its spawned tasks to the scheduler it
    names, which covers a task that re-enters the scheduler it runs on. *)
#[local] Unset Elimination Schemes.
Inductive Task :=
| MkTask (id : nat) (spawns : list (Scheduler * Task)).

#[local] Set Elimination Schemes.

Definition task_id (t : Task) : nat :=
  match t with MkTask id _ => id end.

Definition task_spawns (t : Task) : list (Scheduler * Task) :=
  match t with MkTask _ sp => sp end.

(** ** The store *)

(** Modelled from the spec: [util::InvocationQueue] is declared in
    [realm/object-store/util/scheduler.hpp], which is not part of the
    sources at hand.  The spec describes it as an ordered buffer of tasks
    in insertion order. *)
Record InvocationQueue := mkInvocationQueue {
  m_functions : list Task
}.

(** [struct RefCountedInvocationQueue]: the queue and a [size_t] count. *)
Record RefCountedInvocationQueue := mkRefCountedInvocationQueue {
  queue : InvocationQueue;
  ref_count : Z
}.

(** A version-0 run-loop source.  Every source of this store is created by
    the constructor below, so its context holds the three callbacks of that
    constructor and only [info] varies. *)
Record CFRunLoopSource := mkCFRunLoopSource {
  src_info : ptr;
  src_retain_count : nat;
  src_valid : bool;
  src_signaled : bool;
  src_runloops : list ptr
}.

Record CFRunLoop := mkCFRunLoop {
  rl_retain_count : nat;
  rl_sources0 : gset Z;
  rl_wakeups : nat;
  rl_current_mode : option string
}.

Record DispatchQueue := mkDispatchQueue {
  dq_class : string;
  dq_label : option string;
  dq_retain_count : nat;
  dq_specific : gmap Z Z;
  dq_blocks : list Task
}.

(** What an observer of the process can see happen, in order. *)
Inductive Event :=
| EvPush (holder : ptr) (t : Task)
| EvSignal (source : ptr)
| EvWakeUp (runloop : ptr)
| EvDispatchAsync (dqueue : ptr) (t : Task)
| EvRun (id : nat)
| EvDelete (holder : ptr).

Record World := mkWorld {
  holders : gmap Z RefCountedInvocationQueue;
  sources : gmap Z CFRunLoopSource;
  runloops : gmap Z CFRunLoop;
  dqueues : gmap Z DispatchQueue;
  trace : list Event
}.

(** The calling thread, as the queries of this file observe it. *)
Record ThreadCtx := mkThreadCtx {
  pthread_main_np : bool;
  CFRunLoopGetCurrent : ptr;
  current_dqueue : option ptr
}.

(** ** Computations over the store *)

Inductive Exception :=
| InvalidArgument (msg : string).

Inductive Outcome (A : Type) :=
| Ok (a : A) (w : World)
| Throw (e : Exception) (w : World)
| Fault.

Arguments Ok {A} a w.
Arguments Throw {A} e w.
Arguments Fault {A}.

Definition M (A : Type) : Type := World -> Outcome A.

Definition ret {A} (a : A) : M A := fun w => Ok a w.

Definition bind {A B} (m : M A) (k : A -> M B) : M B :=
  fun w =>
    match m w with
    | Ok a w' => k a w'
    | Throw e w' => Throw e w'
    | Fault => Fault
    end.

Definition throw {A} (e : Exception) : M A := fun w => Throw e w.

Definition fault {A} : M A := fun _ => Fault.

Notation "'do' x <- m ; k" := (bind m (fun x => k))
  (at level 10, x name, m at level 100, k at level 200).
Notation "'run' m ; k" := (bind m (fun _ => k))
  (at level 10, m at level 100, k at level 200).

(** [for (auto&& x : l) f(x);] *)
Fixpoint for_each {A} (f : A -> M unit) (l : list A) : M unit :=
  match l with
  | [] => ret tt
  | x :: l' => run f x ; for_each f l'
  end.

Definition emit (e : Event) : M unit :=
  fun w => Ok tt (mkWorld (holders w) (sources w) (runloops w) (dqueues w)
                          (trace w ++ [e])).

Definition get_holder (p : ptr) : M RefCountedInvocationQueue :=
  fun w => match holders w !! p with Some h => Ok h w | None => Fault end.

Definition set_holder (p : ptr) (h : RefCountedInvocationQueue) : M unit :=
  fun w => Ok tt (mkWorld (<[p := h]> (holders w)) (sources w) (runloops w)
                          (dqueues w) (trace w)).

Definition get_source (p : ptr) : M CFRunLoopSource :=
  fun w => match sources w !! p with Some s => Ok s w | None => Fault end.

Definition set_source (p : ptr) (s : CFRunLoopSource) : M unit :=
  fun w => Ok tt (mkWorld (holders w) (<[p := s]> (sources w)) (runloops w)
                          (dqueues w) (trace w)).

Definition get_runloop (p : ptr) : M CFRunLoop :=
  fun w => match runloops w !! p with Some r => Ok r w | None => Fault end.

Definition set_runloop (p : ptr) (r : CFRunLoop) : M unit :=
  fun w => Ok tt (mkWorld (holders w) (sources w) (<[p := r]> (runloops w))
                          (dqueues w) (trace w)).

Definition get_dqueue (p : ptr) : M DispatchQueue :=
  fun w => match dqueues w !! p with Some q => Ok q w | None => Fault end.

Definition set_dqueue (p : ptr) (q : DispatchQueue) : M unit :=
  fun w => Ok tt (mkWorld (holders w) (sources w) (runloops w)
                          (<[p := q]> (dqueues w)) (trace w)).

(** An address no live object of the map occupies, and not null. *)
Definition fresh_ptr {V} (m : gmap Z V) : ptr := fresh ({[nullptr]} ∪ dom m).

(** ** The holder and the callbacks of the source context *)

(** [size_t] on the 64-bit targets of this file. *)
Definition SIZE_BITS : Z := 64.

(** Conversion to [size_t]. *)
Definition to_size_t (z : Z) : Z := z mod 2 ^ SIZE_BITS.

(** [new RefCountedInvocationQueue]: an empty queue, [ref_count = {0}]. *)
Definition new_RefCountedInvocationQueue : M ptr :=
  fun w =>
    let p := fresh_ptr (holders w) in
    (run set_holder p (mkRefCountedInvocationQueue (mkInvocationQueue []) 0) ;
     ret p) w.

(** [delete ptr] *)
Definition delete_holder (p : ptr) : M unit :=
  fun w =>
    match holders w !! p with
    | Some _ =>
        Ok tt (mkWorld (delete p (holders w)) (sources w) (runloops w)
                       (dqueues w) (trace w ++ [EvDelete p]))
    | None => Fault
    end.

(** [ptr->ref_count.fetch_add(arg)]: stores the wrapped sum and returns
    the value held before. *)
Definition fetch_add (p : ptr) (arg : Z) : M Z :=
  do h <- get_holder p ;
  run set_holder p (mkRefCountedInvocationQueue (queue h)
                      (to_size_t (ref_count h + to_size_t arg))) ;
  ret (ref_count h).

(** [ctx.retain]: [ref_count.fetch_add(1, relaxed); return info;] *)
Definition ctx_retain (info : ptr) : M ptr :=
  do _ <- fetch_add info 1 ;
  ret info.

(** [ctx.release]:
    [if (ptr->ref_count.fetch_add(-1, acq_rel) == 1) delete ptr;] *)
Definition ctx_release (info : ptr) : M unit :=
  do old <- fetch_add info (-1) ;
  if old =? 1 then delete_holder info else ret tt.

(** Modelled from the spec: [InvocationQueue::push] is defined outside the
    sources at hand; the spec has it append the task to the tail of the
    buffer. *)
Definition InvocationQueue_push (p : ptr) (fn : Task) : M unit :=
  do h <- get_holder p ;
  run set_holder p (mkRefCountedInvocationQueue
                      (mkInvocationQueue (m_functions (queue h) ++ [fn]))
                      (ref_count h)) ;
  emit (EvPush p fn).

(** ** CoreFoundation, as far as this file calls into it *)

Definition with_retain_count (n : nat) (s : CFRunLoopSource) :=
  mkCFRunLoopSource (src_info s) n (src_valid s) (src_signaled s)
                    (src_runloops s).

Definition with_signaled (b : bool) (s : CFRunLoopSource) :=
  mkCFRunLoopSource (src_info s) (src_retain_count s) (src_valid s) b
                    (src_runloops s).

Definition delete_source (p : ptr) : M unit :=
  fun w => Ok tt (mkWorld (holders w) (delete p (sources w)) (runloops w)
                          (dqueues w) (trace w)).

Definition delete_runloop (p : ptr) : M unit :=
  fun w => Ok tt (mkWorld (holders w) (sources w) (delete p (runloops w))
                          (dqueues w) (trace w)).

Definition delete_dqueue (p : ptr) : M unit :=
  fun w => Ok tt (mkWorld (holders w) (sources w) (runloops w)
                          (delete p (dqueues w)) (trace w)).

(** [CFRetain] and [CFRelease] on a run loop. *)
Definition CFRetain_runloop (rl : ptr) : M unit :=
  do r <- get_runloop rl ;
  set_runloop rl (mkCFRunLoop (S (rl_retain_count r)) (rl_sources0 r)
                              (rl_wakeups r) (rl_current_mode r)).

Definition CFRelease_runloop (rl : ptr) : M unit :=
  do r <- get_runloop rl ;
  match rl_retain_count r with
  | O => fault
  | S O => delete_runloop rl
  | S n => set_runloop rl (mkCFRunLoop n (rl_sources0 r) (rl_wakeups r)
                                       (rl_current_mode r))
  end.

(** [CFRetain] on a source. *)
Definition CFRetain_source (s : ptr) : M unit :=
  do src <- get_source s ;
  set_source s (with_retain_count (S (src_retain_count src)) src).

(** [CFRelease] on a source.  Giving up the last reference deallocates the
    source, and deallocation is where CoreFoundation calls the [release]
    callback of the context on [info]. *)
Definition CFRelease_source (s : ptr) : M unit :=
  do src <- get_source s ;
  match src_retain_count src with
  | O => fault
  | S O => run delete_source s ; ctx_release (src_info src)
  | S n => set_source s (with_retain_count n src)
  end.

(** [CFRunLoopSourceCreate(kCFAllocatorDefault, 0, &ctx)] with
    [ctx.info = info]: the context is copied into the new source, which
    calls the [retain] callback on [info] once; the caller owns the one
    reference of the new source. *)
Definition CFRunLoopSourceCreate (info : ptr) : M ptr :=
  do info' <- ctx_retain info ;
  fun w =>
    let s := fresh_ptr (sources w) in
    (run set_source s (mkCFRunLoopSource info' 1 true false []) ;
     ret s) w.

(** [CFRunLoopAddSource(rl, s, kCFRunLoopDefaultMode)]: a valid source not
    yet in the mode is put into the mode's set, which retains it. *)
Definition CFRunLoopAddSource (rl s : ptr) : M unit :=
  do r <- get_runloop rl ;
  do src <- get_source s ;
  if src_valid src && negb (bool_decide (s ∈ rl_sources0 r)) then
    run set_runloop rl (mkCFRunLoop (rl_retain_count r)
                                    ({[s]} ∪ rl_sources0 r)
                                    (rl_wakeups r) (rl_current_mode r)) ;
    set_source s (mkCFRunLoopSource (src_info src)
                                    (S (src_retain_count src))
                                    (src_valid src) (src_signaled src)
                                    (rl :: src_runloops src))
  else ret tt.

(** [CFRunLoopRemoveSource]: the mode's set gives up its reference. *)
Definition CFRunLoopRemoveSource (s rl : ptr) : M unit :=
  do r <- get_runloop rl ;
  if bool_decide (s ∈ rl_sources0 r) then
    run set_runloop rl (mkCFRunLoop (rl_retain_count r)
                                    (rl_sources0 r ∖ {[s]})
                                    (rl_wakeups r) (rl_current_mode r)) ;
    CFRelease_source s
  else ret tt.

(** [CFRunLoopSourceInvalidate]: under a reference of its own, a valid
    source is marked invalid and taken out of every run loop it was added
    to.  The context is not released here. *)
Definition CFRunLoopSourceInvalidate (s : ptr) : M unit :=
  run CFRetain_source s ;
  do src <- get_source s ;
  run (if src_valid src then
         run set_source s (mkCFRunLoopSource (src_info src)
                                             (src_retain_count src)
                                             false (src_signaled src) []) ;
         for_each (CFRunLoopRemoveSource s) (src_runloops src)
       else ret tt) ;
  CFRelease_source s.

(** [CFRunLoopSourceSignal]: marks a valid source as having work. *)
Definition CFRunLoopSourceSignal (s : ptr) : M unit :=
  do src <- get_source s ;
  run (if src_valid src then set_source s (with_signaled true src)
       else ret tt) ;
  emit (EvSignal s).

(** [CFRunLoopWakeUp] *)
Definition CFRunLoopWakeUp (rl : ptr) : M unit :=
  do r <- get_runloop rl ;
  run set_runloop rl (mkCFRunLoop (rl_retain_count r) (rl_sources0 r)
                                  (S (rl_wakeups r)) (rl_current_mode r)) ;
  emit (EvWakeUp rl).

(** [CFRunLoopCopyCurrentMode]: the mode of the callout in progress, null
    outside a callout. *)
Definition CFRunLoopCopyCurrentMode (rl : ptr) : M (option string) :=
  do r <- get_runloop rl ;
  ret (rl_current_mode r).

(** ** libdispatch and the Objective-C runtime *)

Definition dispatch_retain (q : ptr) : M unit :=
  do dq <- get_dqueue q ;
  set_dqueue q (mkDispatchQueue (dq_class dq) (dq_label dq)
                                (S (dq_retain_count dq)) (dq_specific dq)
                                (dq_blocks dq)).

Definition dispatch_release (q : ptr) : M unit :=
  do dq <- get_dqueue q ;
  match dq_retain_count dq with
  | O => fault
  | S O => delete_dqueue q
  | S n => set_dqueue q (mkDispatchQueue (dq_class dq) (dq_label dq) n
                                         (dq_specific dq) (dq_blocks dq))
  end.

(** [dispatch_queue_get_specific]: null when the key has no value. *)
Definition dispatch_queue_get_specific (q key : ptr) : M ptr :=
  do dq <- get_dqueue q ;
  ret (default nullptr (dq_specific dq !! key)).

(** [dispatch_queue_set_specific(q, key, context, nullptr)] *)
Definition dispatch_queue_set_specific (q key context : ptr) : M unit :=
  do dq <- get_dqueue q ;
  set_dqueue q (mkDispatchQueue (dq_class dq) (dq_label dq)
                                (dq_retain_count dq)
                                (<[key := context]> (dq_specific dq))
                                (dq_blocks dq)).

(** [dispatch_get_specific]: the value of the key on the queue the caller
    runs on, null when it runs on none. *)
Definition dispatch_get_specific (cur : ThreadCtx) (key : ptr) : M ptr :=
  match current_dqueue cur with
  | Some q => dispatch_queue_get_specific q key
  | None => ret nullptr
  end.

(** [dispatch_async]: the block joins the queue and the call returns. *)
Definition dispatch_async (q : ptr) (block : Task) : M unit :=
  do dq <- get_dqueue q ;
  run set_dqueue q (mkDispatchQueue (dq_class dq) (dq_label dq)
                                    (dq_retain_count dq) (dq_specific dq)
                                    (dq_blocks dq ++ [block])) ;
  emit (EvDispatchAsync q block).

(** An Objective-C class is known by its name: [objc_getClass] and
    [class_getName] are inverse to each other. *)
Definition objc_getClass (name : string) : string := name.

Definition class_getName (cls : string) : string := cls.

Definition object_getClass (q : ptr) : M string :=
  do dq <- get_dqueue q ;
  ret (dq_class dq).

Definition dispatch_queue_get_label (q : ptr) : M (option string) :=
  do dq <- get_dqueue q ;
  ret (dq_label dq).

(** Modelled from the spec: [util::format] comes from
    [realm/util/to_string.hpp], outside the sources at hand.  The error
    message is the template with [%1] and [%2] replaced by the first and
    second argument; a placeholder is a percent sign and one digit. *)
Definition placeholder_index (c : ascii) : option nat :=
  let n := Ascii.nat_of_ascii c in
  if bool_decide (49 ≤ n ≤ 57)%nat then Some (n - 49)%nat else None.

Fixpoint format (fmt : string) (args : list string) : string :=
  match fmt with
  | EmptyString => EmptyString
  | String c rest =>
      match rest with
      | String d rest' =>
          if Ascii.eqb c "%"%char then
            match placeholder_index d with
            | Some i => default EmptyString (args !! i) +:+ format rest' args
            | None => String c (format rest args)
            end
          else String c (format rest args)
      | EmptyString => String c EmptyString
      end
  end.

(** ** RunLoopScheduler *)

(** [RunLoopScheduler::RunLoopScheduler(CFRunLoopRef run_loop)] *)
Definition RunLoopScheduler_new (cur : ThreadCtx) (run_loop : ptr)
  : M RunLoopScheduler :=
  let runloop :=
    if run_loop =? nullptr then CFRunLoopGetCurrent cur else run_loop in
  do holder <- new_RefCountedInvocationQueue ;
  run CFRetain_runloop runloop ;
  do notify_signal <- CFRunLoopSourceCreate holder ;
  run CFRunLoopAddSource runloop notify_signal ;
  ret (mkRunLoopScheduler runloop notify_signal holder).

(** [RunLoopScheduler::~RunLoopScheduler()] *)
Definition RunLoopScheduler_delete (self : RunLoopScheduler) : M unit :=
  run CFRunLoopSourceInvalidate (m_notify_signal self) ;
  run CFRelease_source (m_notify_signal self) ;
  CFRelease_runloop (m_runloop self).

(** [RunLoopScheduler::invoke] *)
Definition RunLoopScheduler_invoke (self : RunLoopScheduler) (fn : Task)
  : M unit :=
  run InvocationQueue_push (m_queue self) fn ;
  run CFRunLoopSourceSignal (m_notify_signal self) ;
  CFRunLoopWakeUp (m_runloop self).

(** [RunLoopScheduler::is_on_thread] *)
Definition RunLoopScheduler_is_on_thread (cur : ThreadCtx)
    (self : RunLoopScheduler) : bool :=
  CFRunLoopGetCurrent cur =? m_runloop self.

(** [dynamic_cast<const RunLoopScheduler*>(other)] *)
Definition dynamic_cast_RunLoopScheduler (other : option Scheduler)
  : option RunLoopScheduler :=
  match other with
  | Some (SRunLoop o) => Some o
  | _ => None
  end.

(** [RunLoopScheduler::is_same_as] *)
Definition RunLoopScheduler_is_same_as (self : RunLoopScheduler)
    (other : option Scheduler) : bool :=
  match dynamic_cast_RunLoopScheduler other with
  | Some o => m_runloop o =? m_runloop self
  | None => false
  end.

(** [RunLoopScheduler::can_invoke]; the copy of the mode string is
    released at once and is not part of the store. *)
Definition RunLoopScheduler_can_invoke (cur : ThreadCtx) : M bool :=
  if pthread_main_np cur then ret true
  else
    do mode <- CFRunLoopCopyCurrentMode (CFRunLoopGetCurrent cur) ;
    match mode with
    | Some _ => ret true
    | None => ret false
    end.

(** ** DispatchQueueScheduler *)

(** [static const void* c_queue_key = &c_queue_key;]: the address of the
    variable, fixed when the program is loaded. *)
Definition c_queue_key : ptr := 49152.

Definition class_dispatch_queue_serial : string :=
  objc_getClass "OS_dispatch_queue_serial".

Definition class_dispatch_queue_main : string :=
  objc_getClass "OS_dispatch_queue_main".

(** [DispatchQueueScheduler::DispatchQueueScheduler(dispatch_queue_t)];
    [available] is the value of the [__builtin_available] test for
    iOS 12.0, macOS 10.14, tvOS 12.0 and watchOS 5.0. *)
Definition DispatchQueueScheduler_new (available : bool) (queue : ptr)
  : M DispatchQueueScheduler :=
  run (if available then
         do cls <- object_getClass queue ;
         if negb (String.eqb cls class_dispatch_queue_serial)
            && negb (String.eqb cls class_dispatch_queue_main)
         then
           do label <- dispatch_queue_get_label queue ;
           throw (InvalidArgument
                    (format "Invalid queue '%1' (%2): Realms can only be confined to serial queues or the main queue."
                            [default "<nil>"%string label; class_getName cls]))
         else ret tt
       else ret tt) ;
  run dispatch_retain queue ;
  do marker <- dispatch_queue_get_specific queue c_queue_key ;
  run (if marker =? nullptr
       then dispatch_queue_set_specific queue c_queue_key queue
       else ret tt) ;
  ret (mkDispatchQueueScheduler queue nullptr).

(** [Block_release]: blocks are not part of the store. *)
Definition Block_release (block : ptr) : M unit := ret tt.

(** [DispatchQueueScheduler::~DispatchQueueScheduler()] *)
Definition DispatchQueueScheduler_delete (self : DispatchQueueScheduler)
  : M unit :=
  run dispatch_release (m_dispatch_queue self) ;
  if m_callback self =? nullptr then ret tt
  else Block_release (m_callback self).

(** [DispatchQueueScheduler::invoke] *)
Definition DispatchQueueScheduler_invoke (self : DispatchQueueScheduler)
    (fn : Task) : M unit :=
  dispatch_async (m_dispatch_queue self) fn.

(** [DispatchQueueScheduler::is_on_thread] *)
Definition DispatchQueueScheduler_is_on_thread (cur : ThreadCtx)
    (self : DispatchQueueScheduler) : M bool :=
  do marker <- dispatch_get_specific cur c_queue_key ;
  ret (marker =? m_dispatch_queue self).

(** [dynamic_cast<const DispatchQueueScheduler*>(other)] *)
Definition dynamic_cast_DispatchQueueScheduler (other : option Scheduler)
  : option DispatchQueueScheduler :=
  match other with
  | Some (SDispatchQueue o) => Some o
  | _ => None
  end.

(** [DispatchQueueScheduler::is_same_as] *)
Definition DispatchQueueScheduler_is_same_as (self : DispatchQueueScheduler)
    (other : option Scheduler) : bool :=
  match dynamic_cast_DispatchQueueScheduler other with
  | Some o => m_dispatch_queue o =? m_dispatch_queue self
  | None => false
  end.

(** [DispatchQueueScheduler::can_invoke] *)
Definition DispatchQueueScheduler_can_invoke : bool := true.

(** ** The virtual interface *)

Definition invoke (s : Scheduler) (fn : Task) : M unit :=
  match s with
  | SRunLoop r => RunLoopScheduler_invoke r fn
  | SDispatchQueue d => DispatchQueueScheduler_invoke d fn
  end.

Definition is_same_as (s : Scheduler) (other : option Scheduler) : bool :=
  match s with
  | SRunLoop r => RunLoopScheduler_is_same_as r other
  | SDispatchQueue d => DispatchQueueScheduler_is_same_as d other
  end.

(** ** Running tasks *)

(** Calling a task: [fn()]. *)
Definition run_task (fn : Task) : M unit :=
  run emit (EvRun (task_id fn)) ;
  for_each (fun sc => invoke sc.1 sc.2) (task_spawns fn).

(** Modelled from the spec: [InvocationQueue::invoke_all] is defined
    outside the sources at hand.  The spec has the drain take every
    buffered task, leave the queue empty, and then call the tasks it took
    in the order they were pushed. *)
Definition InvocationQueue_invoke_all (p : ptr) : M unit :=
  do h <- get_holder p ;
  let functions := m_functions (queue h) in
  run set_holder p (mkRefCountedInvocationQueue (mkInvocationQueue [])
                                                (ref_count h)) ;
  for_each run_task functions.

(** [ctx.perform]: [info->queue.invoke_all();] *)
Definition ctx_perform (info : ptr) : M unit :=
  InvocationQueue_invoke_all info.

(** The block [dispatch_async] was given: [UniqueFunction{ptr}();] *)
Definition dispatch_block_invoke (fn : Task) : M unit := run_task fn.

(** ** What the native side does on its own *)

(** The run loop takes a reference on a source of its mode before it
    services it, and gives the reference up afterwards. *)
Definition CFRunLoop_collect_source (rl s : ptr) : M unit :=
  do r <- get_runloop rl ;
  if bool_decide (s ∈ rl_sources0 r) then CFRetain_source s else fault.

(** Servicing a version-0 source: a signaled source is unsignaled and, if
    it was valid when looked at, its [perform] callback is called on
    [info]. *)
Definition CFRunLoop_do_source0 (s : ptr) : M unit :=
  do src <- get_source s ;
  if src_signaled src then
    run set_source s (with_signaled false src) ;
    if src_valid src then ctx_perform (src_info src) else ret tt
  else ret tt.

(** A dispatch queue runs the block submitted first. *)
Definition dispatch_queue_drain_one (q : ptr) : M unit :=
  do dq <- get_dqueue q ;
  match dq_blocks dq with
  | [] => ret tt
  | block :: rest =>
      run set_dqueue q (mkDispatchQueue (dq_class dq) (dq_label dq)
                                        (dq_retain_count dq)
                                        (dq_specific dq) rest) ;
      dispatch_block_invoke block
  end.

(** ** The process as a transition system

    One step is one call into this file by the application, or one action
    of the run loop or a dispatch queue. *)
Inductive Op :=
| OpNewRunLoopScheduler (cur : ThreadCtx) (run_loop : ptr)
| OpDeleteRunLoopScheduler (self : RunLoopScheduler)
| OpNewDispatchQueueScheduler (available : bool) (queue : ptr)
| OpDeleteDispatchQueueScheduler (self : DispatchQueueScheduler)
| OpInvoke (s : Scheduler) (fn : Task)
| OpCanInvoke (cur : ThreadCtx)
| OpIsOnThread (cur : ThreadCtx) (self : DispatchQueueScheduler)
| OpLoopCollect (rl s : ptr)
| OpLoopPerform (s : ptr)
| OpLoopRelease (s : ptr)
| OpQueueDrain (q : ptr).

Definition discard {A} (m : M A) : M unit := do _ <- m ; ret tt.

Definition exec (op : Op) : M unit :=
  match op with
  | OpNewRunLoopScheduler cur run_loop =>
      discard (RunLoopScheduler_new cur run_loop)
  | OpDeleteRunLoopScheduler self => RunLoopScheduler_delete self
  | OpNewDispatchQueueScheduler available queue =>
      discard (DispatchQueueScheduler_new available queue)
  | OpDeleteDispatchQueueScheduler self => DispatchQueueScheduler_delete self
  | OpInvoke s fn => invoke s fn
  | OpCanInvoke cur => discard (RunLoopScheduler_can_invoke cur)
  | OpIsOnThread cur self =>
      discard (DispatchQueueScheduler_is_on_thread cur self)
  | OpLoopCollect rl s => CFRunLoop_collect_source rl s
  | OpLoopPerform s => CFRunLoop_do_source0 s
  | OpLoopRelease s => CFRelease_source s
  | OpQueueDrain q => dispatch_queue_drain_one q
  end.

(** A step completes normally or by an exception; a fault is no step. *)
Definition step (op : Op) (w w' : World) : Prop :=
  exec op w = Ok tt w' \/ exists e, exec op w = Throw e w'.

Inductive steps : list Op -> World -> World -> Prop :=
| steps_nil w : steps [] w w
| steps_cons op ops w w' w'' :
    step op w w' -> steps ops w' w'' -> steps (op :: ops) w w''.

(** The operations that give up a reference on a run-loop source. *)
Definition releases_source (op : Op) : bool :=
  match op with
  | OpDeleteRunLoopScheduler _ | OpLoopRelease _ => true
  | _ => false
  end.

(** ** Observations *)

(** The identifiers of the tasks that have been run, oldest first. *)
Fixpoint executed_of (tr : list Event) : list nat :=
  match tr with
  | [] => []
  | EvRun id :: tr' => id :: executed_of tr'
  | _ :: tr' => executed_of tr'
  end.

Definition executed (w : World) : list nat := executed_of (trace w).

Definition RunLoopScheduler_live (self : RunLoopScheduler) (w : World) : Prop :=
  is_Some (holders w !! m_queue self)
  /\ is_Some (sources w !! m_notify_signal self)
  /\ is_Some (runloops w !! m_runloop self).

Definition DispatchQueueScheduler_live (self : DispatchQueueScheduler)
    (w : World) : Prop :=
  is_Some (dqueues w !! m_dispatch_queue self).

Definition Scheduler_live (s : Scheduler) (w : World) : Prop :=
  match s with
  | SRunLoop r => RunLoopScheduler_live r w
  | SDispatchQueue d => DispatchQueueScheduler_live d w
  end.

(** What one call of [invoke] lets an observer see. *)
Definition invoke_events (s : Scheduler) (fn : Task) : list Event :=
  match s with
  | SRunLoop r =>
      [EvPush (m_queue r) fn; EvSignal (m_notify_signal r);
       EvWakeUp (m_runloop r)]
  | SDispatchQueue d => [EvDispatchAsync (m_dispatch_queue d) fn]
  end.

(** The tasks a scheduler holds for later. *)
Definition pending (s : Scheduler) (w : World) : list Task :=
  match s with
  | SRunLoop r =>
      match holders w !! m_queue r with
      | Some h => m_functions (queue h)
      | None => []
      end
  | SDispatchQueue d =>
      match dqueues w !! m_dispatch_queue d with
      | Some dq => dq_blocks dq
      | None => []
      end
  end.

(** The two halves of the identity of a scheduler. *)
Definition same_variant (a b : Scheduler) : bool :=
  match a, b with
  | SRunLoop _, SRunLoop _ => true
  | SDispatchQueue _, SDispatchQueue _ => true
  | _, _ => false
  end.

Definition native_identity (s : Scheduler) : ptr :=
  match s with
  | SRunLoop r => m_runloop r
  | SDispatchQueue d => m_dispatch_queue d
  end.

(** A task that hands its spawned tasks to the run-loop scheduler [self]. *)
Definition reenters (self : RunLoopScheduler) (t : Task) : Prop :=
  Forall (fun sc => sc.1 = SRunLoop self) (task_spawns t).

Definition spawned (ts : list Task) : list Task :=
  concat (map (fun t => map snd (task_spawns t)) ts).

(** A run-loop scheduler as its constructor leaves it, with [extra]
    further references on its source held by the run loop. *)
Record RunLoopScheduler_wf (self : RunLoopScheduler) (extra : nat)
    (w : World) (h : RefCountedInvocationQueue) (src : CFRunLoopSource)
    (r : CFRunLoop) : Prop := {
  wf_holder : holders w !! m_queue self = Some h;
  wf_ref_count : ref_count h = 1;
  wf_source : sources w !! m_notify_signal self = Some src;
  wf_info : src_info src = m_queue self;
  wf_valid : src_valid src = true;
  wf_runloops : src_runloops src = [m_runloop self];
  wf_retain_count : src_retain_count src = S (S extra);
  wf_runloop : runloops w !! m_runloop self = Some r;
  wf_registered : m_notify_signal self ∈ rl_sources0 r;
  wf_runloop_retained : (1 <= rl_retain_count r)%nat
}.

(** [n] times [CFRelease] on a source. *)
Definition CFRelease_source_times (n : nat) (s : ptr) : M unit :=
  for_each (fun _ : unit => CFRelease_source s) (replicate n tt).

(** How holders and sources hang together: the context of a live source
    points to a live holder whose count is 1, no two live sources share a
    holder, and every live holder belongs to a live source. *)
Record holder_inv (w : World) : Prop := {
  inv_owned : forall s src, sources w !! s = Some src ->
    exists h, holders w !! src_info src = Some h /\ ref_count h = 1;
  inv_unshared : forall s1 s2 src1 src2,
    sources w !! s1 = Some src1 -> sources w !! s2 = Some src2 ->
    src_info src1 = src_info src2 -> s1 = s2;
  inv_owner : forall p h, holders w !! p = Some h ->
    exists s src, sources w !! s = Some src /\ src_info src = p
}.

(** The count the holder would show if the backend held one counted
    reference of its own and the run loop one per registration. *)
Definition two_owner_count (backend_alive : bool) (registrations : nat) : Z :=
  (if backend_alive then 1 else 0) + Z.of_nat registrations.

(** ** Sample store *)

Definition sample_runloop : CFRunLoop := mkCFRunLoop 1 ∅ 0 None.

Definition sample_world : World :=
  mkWorld ∅ ∅ {[ 100 := sample_runloop ]}
    {[ 200 := mkDispatchQueue "OS_dispatch_queue_serial"
                              (Some "realm.serial"%string) 1 ∅ [];
       300 := mkDispatchQueue "OS_dispatch_queue_concurrent"
                              (Some "realm.concurrent"%string) 1 ∅ [] ]}
    [].

Definition sample_thread : ThreadCtx := mkThreadCtx false 100 None.

Definition sample_scheduler : RunLoopScheduler := mkRunLoopScheduler 100 1 1.

(** The sample store after
    [RunLoopScheduler_new sample_thread nullptr]. *)
Definition sample_constructed : World :=
  mkWorld
    {[ 1 := mkRefCountedInvocationQueue (mkInvocationQueue []) 1 ]}
    {[ 1 := mkCFRunLoopSource 1 2 true false [100] ]}
    {[ 100 := mkCFRunLoop 2 {[ 1 ]} 0 None ]}
    (dqueues sample_world) [].

(** The same with one more reference on the source, taken by the run
    loop that is about to service it. *)
Definition sample_collected : World :=
  mkWorld
    {[ 1 := mkRefCountedInvocationQueue (mkInvocationQueue []) 1 ]}
    {[ 1 := mkCFRunLoopSource 1 3 true false [100] ]}
    {[ 100 := mkCFRunLoop 2 {[ 1 ]} 0 None ]}
    (dqueues sample_world) [].

(** A task that re-enters the sample scheduler, and one that does not. *)
Definition sample_tasks : list Task :=
  [MkTask 1 [(SRunLoop sample_scheduler, MkTask 2 [])]; MkTask 3 []].

(** ** Vocabulary of the statements *)

(** The holder of [self] buffers exactly [l] and its count is [c]. *)
Definition holder_queue (self : RunLoopScheduler) (w : World)
    (l : list Task) (c : Z) : Prop :=
  holders w !! m_queue self
  = Some (mkRefCountedInvocationQueue (mkInvocationQueue l) c).

(** The class of the queue is one of the two the constructor accepts. *)
Definition serial_or_main (dq : DispatchQueue) : bool :=
  String.eqb (dq_class dq) "OS_dispatch_queue_serial"
  || String.eqb (dq_class dq) "OS_dispatch_queue_main".

(** The queue-local values of [q] once a scheduler has been constructed
    over it. *)
Definition marked (q : ptr) (specific : gmap Z Z) : gmap Z Z :=
  if default nullptr (specific !! c_queue_key) =? nullptr
  then <[c_queue_key := q]> specific
  else specific.

Definition invalid_queue_message (label cls : string) : string :=
  "Invalid queue '" +:+ label +:+ "' (" +:+ cls +:+
  "): Realms can only be confined to serial queues or the main queue.".

(** Hoare triples: from a store satisfying [P], a computation that returns
    leaves one satisfying [Q], one that throws leaves one satisfying [E]. *)
Definition triple {A} (P : World -> Prop) (m : M A)
    (Q : A -> World -> Prop) (E : World -> Prop) : Prop :=
  forall w, P w ->
    match m w with
    | Ok a w' => Q a w'
    | Throw _ w' => E w'
    | Fault => True
    end.

(** A property of the store that looks at holders and sources only, that
    does not mind a live source changing anything but its [info], and does
    not mind a live holder changing anything but its count, survives every
    operation that neither allocates nor gives up a reference. *)
Definition heap_only (P : World -> Prop) : Prop :=
  forall w w', holders w' = holders w -> sources w' = sources w ->
               P w -> P w'.

Definition source_update_stable (P : World -> Prop) : Prop :=
  forall w s src src',
    P w -> sources w !! s = Some src -> src_info src' = src_info src ->
    P (mkWorld (holders w) (<[s := src']> (sources w)) (runloops w)
               (dqueues w) (trace w)).

Definition holder_update_stable (P : World -> Prop) : Prop :=
  forall w p h h',
    P w -> holders w !! p = Some h -> ref_count h' = ref_count h ->
    P (mkWorld (<[p := h']> (holders w)) (sources w) (runloops w)
               (dqueues w) (trace w)).

Definition holder_alive (p : ptr) (w : World) : Prop :=
  is_Some (holders w !! p).

(** What the holder [p], whose count is [c], goes through while
    references on the source [s] are given up: it is untouched, or [s] is
    gone and the holder went with it only if [c] was 1. *)
Definition holder_untouched (p : ptr) (c : Z) (w : World) : Prop :=
  exists h, holders w !! p = Some h /\ ref_count h = c.

Definition source_gone (p : ptr) (c : Z) (s : ptr) (w : World) : Prop :=
  sources w !! s = None /\ (holders w !! p = None -> c = 1).

Definition holder_fate (p : ptr) (c : Z) (s : ptr) (w : World) : Prop :=
  holder_untouched p c w \/ source_gone p c s w.

(** The operations that neither allocate a holder nor give up a reference
    on a source. *)
Definition plain (op : Op) : bool :=
  match op with
  | OpNewRunLoopScheduler _ _ | OpDeleteRunLoopScheduler _
  | OpLoopRelease _ => false
  | _ => true
  end.

(** ** Vocabulary of the further statements *)

(** [Scheduler::is_on_thread], dispatched on the dynamic type. *)
Definition is_on_thread (cur : ThreadCtx) (s : Scheduler) : M bool :=
  match s with
  | SRunLoop r => ret (RunLoopScheduler_is_on_thread cur r)
  | SDispatchQueue d => DispatchQueueScheduler_is_on_thread cur d
  end.

(** Two schedulers that do not buffer their tasks in the same place. *)
Definition separate (a b : Scheduler) : Prop :=
  match a, b with
  | SRunLoop x, SRunLoop y => m_queue x <> m_queue y
  | SDispatchQueue x, SDispatchQueue y =>
      m_dispatch_queue x <> m_dispatch_queue y
  | _, _ => True
  end.

Definition nonempty {A} (l : list A) : bool :=
  match l with [] => false | _ => true end.

(** The holder of [self] buffers [l] with count [c], its source is valid,
    points to the holder and has signal flag [sig], and its run loop is
    live. *)
Definition scheduler_state (self : RunLoopScheduler) (w : World)
    (l : list Task) (c : Z) (sig : bool) : Prop :=
  holder_queue self w l c
  /\ (exists src, sources w !! m_notify_signal self = Some src
                  /\ src_info src = m_queue self
                  /\ src_valid src = true /\ src_signaled src = sig)
  /\ is_Some (runloops w !! m_runloop self).

(** A task that hands its spawned tasks to the dispatch-queue scheduler
    [self]. *)
Definition resubmits (self : DispatchQueueScheduler) (t : Task) : Prop :=
  Forall (fun sc => sc.1 = SDispatchQueue self) (task_spawns t).

(** The queue [q] runs [n] blocks, one after the other. *)
Definition dispatch_queue_drain_times (n : nat) (q : ptr) : M unit :=
  for_each (fun _ : unit => dispatch_queue_drain_one q) (replicate n tt).

(** The blocks waiting on the queue [q] are exactly [l]. *)
Definition dqueue_blocks (q : ptr) (w : World) (l : list Task) : Prop :=
  exists dq, dqueues w !! q = Some dq /\ dq_blocks dq = l.

(** The sample store after [invoke] of a task on the sample scheduler. *)
Definition sample_pending : World :=
  mkWorld
    {[ 1 := mkRefCountedInvocationQueue (mkInvocationQueue [MkTask 3 []]) 1 ]}
    {[ 1 := mkCFRunLoopSource 1 2 true true [100] ]}
    {[ 100 := mkCFRunLoop 2 {[ 1 ]} 1 None ]}
    (dqueues sample_world)
    [EvPush 1 (MkTask 3 []); EvSignal 1; EvWakeUp 100].

Definition sample_dispatch_scheduler : DispatchQueueScheduler :=
  mkDispatchQueueScheduler 200 nullptr.

Definition sample_dispatch_tasks : list Task :=
  [MkTask 1 [(SDispatchQueue sample_dispatch_scheduler, MkTask 2 [])];
   MkTask 3 []].

(** A store with one holder nobody has retained yet. *)
Definition sample_unretained : World :=
  mkWorld {[ 7 := mkRefCountedInvocationQueue (mkInvocationQueue []) 0 ]}
          ∅ ∅ ∅ [].

(** ** Reasoning about computations *)

Lemma bind_Ok {A B} (m : M A) (k : A -> M B) w a w' :
  m w = Ok a w' -> bind m k w = k a w'.
Proof. intros H. unfold bind. now rewrite H. Qed.

Lemma get_holder_Ok p h w :
  holders w !! p = Some h -> get_holder p w = Ok h w.
Proof. intros H. unfold get_holder. now rewrite H. Qed.

Lemma executed_of_app tr1 tr2 :
  executed_of (tr1 ++ tr2) = executed_of tr1 ++ executed_of tr2.
Proof.
  induction tr1 as [|e tr1 IH]; [reflexivity|].
  destruct e; simpl; now rewrite ?IH.
Qed.

Lemma RunLoopScheduler_invoke_Ok self fn w h src r :
  holders w !! m_queue self = Some h ->
  sources w !! m_notify_signal self = Some src ->
  runloops w !! m_runloop self = Some r ->
  RunLoopScheduler_invoke self fn w =
    Ok tt (mkWorld
             (<[m_queue self :=
                  mkRefCountedInvocationQueue
                    (mkInvocationQueue (m_functions (queue h) ++ [fn]))
                    (ref_count h)]> (holders w))
             (if src_valid src
              then <[m_notify_signal self := with_signaled true src]> (sources w)
              else sources w)
             (<[m_runloop self :=
                  mkCFRunLoop (rl_retain_count r) (rl_sources0 r)
                              (S (rl_wakeups r)) (rl_current_mode r)]>
                (runloops w))
             (dqueues w)
             (trace w ++ [EvPush (m_queue self) fn;
                          EvSignal (m_notify_signal self);
                          EvWakeUp (m_runloop self)])).
Proof.
  intros Hh Hs Hr.
  unfold RunLoopScheduler_invoke, InvocationQueue_push, CFRunLoopSourceSignal,
    CFRunLoopWakeUp, bind, get_holder, get_source, get_runloop, set_holder,
    set_source, set_runloop, emit, ret; simpl.
  rewrite Hh; simpl. rewrite Hs; simpl.
  destruct (src_valid src); simpl; rewrite Hr; simpl;
    now rewrite <- !app_assoc.
Qed.

Lemma DispatchQueueScheduler_invoke_Ok self fn w dq :
  dqueues w !! m_dispatch_queue self = Some dq ->
  DispatchQueueScheduler_invoke self fn w =
    Ok tt (mkWorld (holders w) (sources w) (runloops w)
             (<[m_dispatch_queue self :=
                  mkDispatchQueue (dq_class dq) (dq_label dq)
                                  (dq_retain_count dq) (dq_specific dq)
                                  (dq_blocks dq ++ [fn])]> (dqueues w))
             (trace w ++ [EvDispatchAsync (m_dispatch_queue self) fn])).
Proof.
  intros Hq.
  unfold DispatchQueueScheduler_invoke, dispatch_async, bind, get_dqueue,
    set_dqueue, emit; simpl.
  now rewrite Hq.
Qed.

(** C7: on every call, [RunLoopScheduler::invoke] first pushes the task
    into the invocation queue, then signals the registered source, then
    wakes the run loop; afterwards the task is the last element of the
    queue, the source is signaled if it is valid, and the run loop has one
    more wake-up. *)
Theorem invoke_pushes_then_signals_and_wakes self fn w h src r :
  holders w !! m_queue self = Some h ->
  sources w !! m_notify_signal self = Some src ->
  runloops w !! m_runloop self = Some r ->
  exists w',
    RunLoopScheduler_invoke self fn w = Ok tt w'
    /\ trace w' = trace w ++ [EvPush (m_queue self) fn;
                              EvSignal (m_notify_signal self);
                              EvWakeUp (m_runloop self)]
    /\ (exists h', holders w' !! m_queue self = Some h'
                   /\ m_functions (queue h') = m_functions (queue h) ++ [fn])
    /\ (exists src', sources w' !! m_notify_signal self = Some src'
                     /\ src_signaled src' = src_valid src || src_signaled src)
    /\ (exists r', runloops w' !! m_runloop self = Some r'
                   /\ rl_wakeups r' = S (rl_wakeups r)).
Proof.
  intros Hh Hs Hr.
  eexists. split; [eapply RunLoopScheduler_invoke_Ok; eassumption|].
  simpl. split; [reflexivity|]. split; [|split].
  - eexists. rewrite lookup_insert_eq. split; reflexivity.
  - destruct (src_valid src) eqn:Hv.
    + eexists. rewrite lookup_insert_eq. split; reflexivity.
    + eexists. split; [eassumption|reflexivity].
  - eexists. rewrite lookup_insert_eq. split; reflexivity.
Qed.

(** *** Draining *)

Lemma RunLoopScheduler_invoke_summary self fn w l c :
  RunLoopScheduler_live self w -> holder_queue self w l c ->
  exists w',
    RunLoopScheduler_invoke self fn w = Ok tt w'
    /\ RunLoopScheduler_live self w'
    /\ holder_queue self w' (l ++ [fn]) c
    /\ executed w' = executed w.
Proof.
  intros (_ & [src Hs] & [r Hr]) Hh.
  eexists. split; [eapply RunLoopScheduler_invoke_Ok; eassumption|].
  unfold RunLoopScheduler_live, holder_queue, executed; simpl.
  rewrite !lookup_insert_eq, executed_of_app, app_nil_r.
  repeat split; eauto.
  destruct (src_valid src); [rewrite lookup_insert_eq|]; eauto.
Qed.

Lemma for_each_invoke_summary self ts : forall w l c,
  RunLoopScheduler_live self w -> holder_queue self w l c ->
  exists w',
    for_each (RunLoopScheduler_invoke self) ts w = Ok tt w'
    /\ RunLoopScheduler_live self w'
    /\ holder_queue self w' (l ++ ts) c
    /\ executed w' = executed w.
Proof.
  induction ts as [|t ts IH]; intros w l c Hlive Hq; simpl.
  - exists w. rewrite app_nil_r. auto.
  - destruct (RunLoopScheduler_invoke_summary self t w l c Hlive Hq)
      as (w1 & E1 & Hlive1 & Hq1 & Hex1).
    destruct (IH w1 _ c Hlive1 Hq1) as (w2 & E2 & Hlive2 & Hq2 & Hex2).
    exists w2. rewrite (bind_Ok _ _ _ _ _ E1), <- app_assoc in *.
    rewrite Hex2, Hex1. auto.
Qed.

Lemma for_each_spawn_summary self sp : forall w l c,
  Forall (fun sc : Scheduler * Task => sc.1 = SRunLoop self) sp ->
  RunLoopScheduler_live self w -> holder_queue self w l c ->
  exists w',
    for_each (fun sc => invoke sc.1 sc.2) sp w = Ok tt w'
    /\ RunLoopScheduler_live self w'
    /\ holder_queue self w' (l ++ map snd sp) c
    /\ executed w' = executed w.
Proof.
  induction sp as [|[s t] sp IH]; intros w l c Hall Hlive Hq; simpl.
  - exists w. rewrite app_nil_r. auto.
  - apply Forall_cons in Hall as [Hs Hall]. simpl in Hs. subst s.
    destruct (RunLoopScheduler_invoke_summary self t w l c Hlive Hq)
      as (w1 & E1 & Hlive1 & Hq1 & Hex1).
    destruct (IH w1 _ c Hall Hlive1 Hq1) as (w2 & E2 & Hlive2 & Hq2 & Hex2).
    exists w2. simpl. rewrite (bind_Ok _ _ _ _ _ E1), <- app_assoc in *.
    rewrite Hex2, Hex1. auto.
Qed.

Lemma run_task_summary self t w l c :
  reenters self t ->
  RunLoopScheduler_live self w -> holder_queue self w l c ->
  exists w',
    run_task t w = Ok tt w'
    /\ RunLoopScheduler_live self w'
    /\ holder_queue self w' (l ++ map snd (task_spawns t)) c
    /\ executed w' = executed w ++ [task_id t].
Proof.
  intros Hre Hlive Hq. unfold run_task.
  set (w0 := mkWorld (holders w) (sources w) (runloops w) (dqueues w)
                     (trace w ++ [EvRun (task_id t)])).
  destruct (for_each_spawn_summary self (task_spawns t) w0 l c Hre Hlive Hq)
    as (w' & E & Hlive' & Hq' & Hex').
  exists w'. rewrite (bind_Ok _ _ w tt w0) by reflexivity.
  repeat split; try apply Hlive'; auto.
  rewrite Hex'. unfold executed, w0; simpl. now rewrite executed_of_app.
Qed.

Lemma for_each_run_task_summary self ts : forall w l c,
  Forall (reenters self) ts ->
  RunLoopScheduler_live self w -> holder_queue self w l c ->
  exists w',
    for_each run_task ts w = Ok tt w'
    /\ RunLoopScheduler_live self w'
    /\ holder_queue self w' (l ++ spawned ts) c
    /\ executed w' = executed w ++ map task_id ts.
Proof.
  induction ts as [|t ts IH]; intros w l c Hall Hlive Hq; simpl.
  - exists w. unfold spawned; simpl. rewrite !app_nil_r. auto.
  - apply Forall_cons in Hall as [Ht Hall].
    destruct (run_task_summary self t w l c Ht Hlive Hq)
      as (w1 & E1 & Hlive1 & Hq1 & Hex1).
    destruct (IH w1 _ c Hall Hlive1 Hq1) as (w2 & E2 & Hlive2 & Hq2 & Hex2).
    exists w2. rewrite (bind_Ok _ _ _ _ _ E1).
    unfold spawned in *; simpl. rewrite <- app_assoc in Hq2.
    rewrite Hex2, Hex1, <- app_assoc. auto.
Qed.

Lemma ctx_perform_summary self ts w c :
  Forall (reenters self) ts ->
  RunLoopScheduler_live self w -> holder_queue self w ts c ->
  exists w',
    ctx_perform (m_queue self) w = Ok tt w'
    /\ RunLoopScheduler_live self w'
    /\ holder_queue self w' (spawned ts) c
    /\ executed w' = executed w ++ map task_id ts.
Proof.
  intros Hall Hlive Hq.
  unfold ctx_perform, InvocationQueue_invoke_all.
  rewrite (bind_Ok _ _ _ _ _ (get_holder_Ok _ _ _ Hq)); simpl.
  set (w0 := mkWorld
               (<[m_queue self :=
                    mkRefCountedInvocationQueue (mkInvocationQueue []) c]>
                  (holders w))
               (sources w) (runloops w) (dqueues w) (trace w)).
  rewrite (bind_Ok _ _ w tt w0) by reflexivity.
  assert (Hlive0 : RunLoopScheduler_live self w0).
  { destruct Hlive as (? & ? & ?). unfold RunLoopScheduler_live, w0; simpl.
    rewrite lookup_insert_eq. eauto. }
  assert (Hq0 : holder_queue self w0 [] c).
  { unfold holder_queue, w0; simpl. now rewrite lookup_insert_eq. }
  destruct (for_each_run_task_summary self ts w0 [] c Hall Hlive0 Hq0)
    as (w' & E & Hlive' & Hq' & Hex').
  exists w'. auto.
Qed.

(** C1: tasks [ts] handed to a scheduler with an empty queue are all
    buffered and none is run; one call of the [perform] callback then runs
    exactly these tasks once each, in the order they were pushed, and the
    tasks they hand to the scheduler while the drain runs are left in the
    queue for the next drain. *)
Theorem drain_runs_pushed_tasks_in_order self ts w c :
  RunLoopScheduler_live self w ->
  holder_queue self w [] c ->
  Forall (reenters self) ts ->
  exists w1 w2,
    for_each (RunLoopScheduler_invoke self) ts w = Ok tt w1
    /\ executed w1 = executed w
    /\ ctx_perform (m_queue self) w1 = Ok tt w2
    /\ executed w2 = executed w ++ map task_id ts
    /\ pending (SRunLoop self) w2 = spawned ts.
Proof.
  intros Hlive Hq Hall.
  destruct (for_each_invoke_summary self ts w [] c Hlive Hq)
    as (w1 & E1 & Hlive1 & Hq1 & Hex1).
  destruct (ctx_perform_summary self ts w1 c Hall Hlive1 Hq1)
    as (w2 & E2 & Hlive2 & Hq2 & Hex2).
  exists w1, w2. rewrite Hex2, Hex1.
  repeat split; auto.
  unfold pending. unfold holder_queue in Hq2. now rewrite Hq2.
Qed.

(** C2: for either variant, [invoke] returns without having run
    anything: the run-loop variant pushes, signals and wakes, the
    dispatch-queue variant submits the block, and the task is buffered. *)
Theorem invoke_does_not_run_the_task s fn w :
  Scheduler_live s w ->
  exists w',
    invoke s fn w = Ok tt w'
    /\ trace w' = trace w ++ invoke_events s fn
    /\ executed w' = executed w
    /\ pending s w' = pending s w ++ [fn].
Proof.
  destruct s as [self|self]; simpl.
  - intros ([h Hh] & [src Hs] & [r Hr]).
    eexists. split; [eapply RunLoopScheduler_invoke_Ok; eassumption|].
    unfold executed; simpl.
    rewrite executed_of_app, app_nil_r, lookup_insert_eq, Hh. auto.
  - intros [dq Hq].
    eexists. split; [eapply DispatchQueueScheduler_invoke_Ok; eassumption|].
    unfold executed; simpl.
    rewrite executed_of_app, app_nil_r, lookup_insert_eq, Hq. auto.
Qed.

(** C4: [is_same_as] answers true exactly for two schedulers of the same
    variant over the same run loop or the same queue, and false for a null
    pointer. *)
Theorem is_same_as_iff_same_variant_and_identity (a : Scheduler) :
  (forall b, is_same_as a (Some b) = true <->
             same_variant a b = true /\ native_identity a = native_identity b)
  /\ is_same_as a None = false.
Proof.
  split.
  - intros b. destruct a as [x|x], b as [y|y]; simpl;
      unfold RunLoopScheduler_is_same_as, DispatchQueueScheduler_is_same_as;
      simpl; rewrite ?Z.eqb_eq; intuition congruence.
  - now destruct a.
Qed.

(** C8: [can_invoke] answers true on the main thread, and on any other
    thread exactly when the current run loop has a current mode. *)
Theorem can_invoke_main_thread_or_in_callout cur w r :
  runloops w !! CFRunLoopGetCurrent cur = Some r ->
  exists b,
    RunLoopScheduler_can_invoke cur w = Ok b w
    /\ (b = true <-> pthread_main_np cur = true \/ rl_current_mode r <> None).
Proof.
  intros Hr. unfold RunLoopScheduler_can_invoke.
  destruct (pthread_main_np cur).
  - exists true. split; [reflexivity|tauto].
  - unfold CFRunLoopCopyCurrentMode, bind, get_runloop, ret.
    rewrite Hr. destruct (rl_current_mode r) as [mode|].
    + exists true. split; [reflexivity|]. split; [right; discriminate|auto].
    + exists false. split; [reflexivity|].
      split; [discriminate|intros [?|?]; congruence].
Qed.

Lemma format_invalid_queue label cls :
  format "Invalid queue '%1' (%2): Realms can only be confined to serial queues or the main queue."
         [label; cls]
  = invalid_queue_message label cls.
Proof. reflexivity. Qed.

Lemma DispatchQueueScheduler_new_Throw queue w dq :
  dqueues w !! queue = Some dq ->
  serial_or_main dq = false ->
  DispatchQueueScheduler_new true queue w
  = Throw (InvalidArgument
             (invalid_queue_message (default "<nil>"%string (dq_label dq))
                                    (dq_class dq))) w.
Proof.
  intros Hq Hcls. unfold serial_or_main in Hcls.
  apply orb_false_iff in Hcls as [H1 H2].
  unfold DispatchQueueScheduler_new, object_getClass, dispatch_queue_get_label,
    class_dispatch_queue_serial, class_dispatch_queue_main, objc_getClass,
    class_getName, bind, get_dqueue, ret, throw.
  rewrite Hq, H1, H2. cbn [negb andb]. cbv beta iota.
  now rewrite Hq, format_invalid_queue.
Qed.

Lemma DispatchQueueScheduler_new_Ok available queue w dq :
  dqueues w !! queue = Some dq ->
  available && negb (serial_or_main dq) = false ->
  DispatchQueueScheduler_new available queue w
  = Ok (mkDispatchQueueScheduler queue nullptr)
       (mkWorld (holders w) (sources w) (runloops w)
          (<[queue := mkDispatchQueue (dq_class dq) (dq_label dq)
                        (S (dq_retain_count dq))
                        (marked queue (dq_specific dq)) (dq_blocks dq)]>
             (dqueues w))
          (trace w)).
Proof.
  intros Hq Hok.
  assert (Hcheck :
    (if available then
       do cls <- object_getClass queue ;
       if negb (String.eqb cls class_dispatch_queue_serial)
          && negb (String.eqb cls class_dispatch_queue_main)
       then
         do label <- dispatch_queue_get_label queue ;
         throw (InvalidArgument
           (format "Invalid queue '%1' (%2): Realms can only be confined to serial queues or the main queue."
                   [default "<nil>"%string label; class_getName cls]))
       else ret tt
     else ret tt) w = Ok tt w).
  { destruct available; [|reflexivity]. simpl in Hok.
    apply negb_false_iff in Hok. unfold serial_or_main in Hok.
    unfold object_getClass, class_dispatch_queue_serial,
      class_dispatch_queue_main, objc_getClass, bind, get_dqueue, ret.
    rewrite Hq. rewrite <- negb_orb, Hok. reflexivity. }
  unfold DispatchQueueScheduler_new.
  rewrite (bind_Ok _ _ _ _ _ Hcheck).
  unfold dispatch_retain, dispatch_queue_get_specific,
    dispatch_queue_set_specific, bind, get_dqueue, set_dqueue, ret; simpl.
  rewrite Hq; simpl. rewrite !lookup_insert_eq; simpl.
  unfold marked.
  destruct (default nullptr (dq_specific dq !! c_queue_key) =? nullptr);
    simpl; rewrite ?lookup_insert_eq; simpl; rewrite ?insert_insert_eq;
    reflexivity.
Qed.

(** C3, as the code has it: where the class test is compiled in, a queue
    that is neither serial nor the main queue is refused with
    [InvalidArgument], the message naming the label of the queue (or
    [<nil>] when it has none) and its class, and the store is left as it
    was; in every other case construction succeeds and retains the
    queue. *)
Theorem DispatchQueueScheduler_new_checks_queue_class available queue w dq :
  dqueues w !! queue = Some dq ->
  if available && negb (serial_or_main dq)
  then DispatchQueueScheduler_new available queue w
       = Throw (InvalidArgument
                  (invalid_queue_message
                     (default "<nil>"%string (dq_label dq)) (dq_class dq))) w
  else exists w' dq',
         DispatchQueueScheduler_new available queue w
         = Ok (mkDispatchQueueScheduler queue nullptr) w'
         /\ dqueues w' !! queue = Some dq'
         /\ dq_retain_count dq' = S (dq_retain_count dq).
Proof.
  intros Hq.
  destruct (available && negb (serial_or_main dq)) eqn:Hrej.
  - apply andb_true_iff in Hrej as [-> Hcls].
    apply negb_true_iff in Hcls.
    now apply DispatchQueueScheduler_new_Throw.
  - eexists _, _. split; [apply DispatchQueueScheduler_new_Ok; eassumption|].
    simpl. rewrite lookup_insert_eq. split; reflexivity.
Qed.

Lemma DispatchQueueScheduler_new_rejects_sample :
  DispatchQueueScheduler_new true 300 sample_world
  = Throw (InvalidArgument
             "Invalid queue 'realm.concurrent' (OS_dispatch_queue_concurrent): Realms can only be confined to serial queues or the main queue.")
          sample_world.
Proof.
  exact (DispatchQueueScheduler_new_checks_queue_class
           true 300 sample_world _ eq_refl).
Defined.

(** C3, as stated, fails where the class test is not available: a
    concurrent queue is accepted. *)
Lemma concurrent_queue_accepted_without_class_test :
  exists dq s w',
    dqueues sample_world !! 300 = Some dq
    /\ serial_or_main dq = false
    /\ DispatchQueueScheduler_new false 300 sample_world = Ok s w'.
Proof.
  eexists _, _, _. split; [reflexivity|]. split; [reflexivity|].
  vm_compute. reflexivity.
Qed.

(** C10: constructing a scheduler over a queue that already carries a
    value for the key leaves that value alone, and sets it to the queue
    itself otherwise; [is_on_thread] of a scheduler over the queue answers
    true exactly when the value the caller sees for the key is the queue,
    so all schedulers over one queue agree. *)
Theorem marker_is_set_once_and_decides_is_on_thread available queue w dq :
  dqueues w !! queue = Some dq ->
  available && negb (serial_or_main dq) = false ->
  exists w' dq',
    DispatchQueueScheduler_new available queue w
    = Ok (mkDispatchQueueScheduler queue nullptr) w'
    /\ dqueues w' !! queue = Some dq'
    /\ (default nullptr (dq_specific dq !! c_queue_key) <> nullptr ->
        dq_specific dq' = dq_specific dq)
    /\ (default nullptr (dq_specific dq !! c_queue_key) = nullptr ->
        dq_specific dq' = <[c_queue_key := queue]> (dq_specific dq))
    /\ forall cur s1 s2 w2,
         m_dispatch_queue s1 = queue -> m_dispatch_queue s2 = queue ->
         DispatchQueueScheduler_is_on_thread cur s1 w2
         = DispatchQueueScheduler_is_on_thread cur s2 w2
         /\ forall marker w3,
              dispatch_get_specific cur c_queue_key w2 = Ok marker w3 ->
              DispatchQueueScheduler_is_on_thread cur s1 w2
              = Ok (marker =? queue) w3.
Proof.
  intros Hq Hok.
  eexists _, _. split; [apply DispatchQueueScheduler_new_Ok; eassumption|].
  simpl. rewrite lookup_insert_eq. split; [reflexivity|]. simpl.
  unfold marked. split; [|split].
  - intros Hm. apply Z.eqb_neq in Hm. now rewrite Hm.
  - intros Hm. apply Z.eqb_eq in Hm. now rewrite Hm.
  - intros cur s1 s2 w2 E1 E2.
    unfold DispatchQueueScheduler_is_on_thread. rewrite E1, E2.
    split; [reflexivity|].
    intros marker w3 Hm. now rewrite (bind_Ok _ _ _ _ _ Hm).
Qed.

(** *** The count *)

Lemma fetch_add_Ok p arg w h :
  holders w !! p = Some h ->
  fetch_add p arg w
  = Ok (ref_count h)
       (mkWorld (<[p := mkRefCountedInvocationQueue (queue h)
                          (to_size_t (ref_count h + to_size_t arg))]>
                   (holders w))
                (sources w) (runloops w) (dqueues w) (trace w)).
Proof.
  intros Hh. unfold fetch_add, bind, get_holder, set_holder, ret.
  now rewrite Hh.
Qed.

Lemma ctx_retain_Ok p w h :
  holders w !! p = Some h ->
  ctx_retain p w
  = Ok p (mkWorld (<[p := mkRefCountedInvocationQueue (queue h)
                             (to_size_t (ref_count h + 1))]> (holders w))
                  (sources w) (runloops w) (dqueues w) (trace w)).
Proof.
  intros Hh. unfold ctx_retain.
  rewrite (bind_Ok _ _ _ _ _ (fetch_add_Ok _ _ _ _ Hh)). reflexivity.
Qed.

Lemma decrement_wraps c :
  to_size_t (c + to_size_t (-1)) = to_size_t (c - 1).
Proof.
  unfold to_size_t. now rewrite Zplus_mod_idemp_r.
Qed.

Lemma ctx_release_last p w h :
  holders w !! p = Some h -> ref_count h = 1 ->
  ctx_release p w
  = Ok tt (mkWorld (delete p (holders w)) (sources w) (runloops w)
                   (dqueues w) (trace w ++ [EvDelete p])).
Proof.
  intros Hh Hc. unfold ctx_release.
  rewrite (bind_Ok _ _ _ _ _ (fetch_add_Ok _ _ _ _ Hh)), Hc.
  unfold delete_holder; simpl. rewrite lookup_insert_eq.
  now rewrite delete_insert_eq.
Qed.

Lemma ctx_release_keep p w h :
  holders w !! p = Some h -> ref_count h <> 1 ->
  ctx_release p w
  = Ok tt (mkWorld (<[p := mkRefCountedInvocationQueue (queue h)
                              (to_size_t (ref_count h - 1))]> (holders w))
                   (sources w) (runloops w) (dqueues w) (trace w)).
Proof.
  intros Hh Hc. unfold ctx_release.
  rewrite (bind_Ok _ _ _ _ _ (fetch_add_Ok _ _ _ _ Hh)).
  apply Z.eqb_neq in Hc. rewrite Hc, decrement_wraps. reflexivity.
Qed.

Lemma decremented_zero_iff c :
  0 <= c < 2 ^ SIZE_BITS -> to_size_t (c - 1) = 0 <-> c = 1.
Proof.
  intros Hc. unfold to_size_t, SIZE_BITS in *. split.
  - intros H. destruct (Z.eq_dec c 0) as [->|Hne].
    + vm_compute in H. discriminate.
    + rewrite Z.mod_small in H by lia. lia.
  - intros ->. reflexivity.
Qed.

(** *** References on a source *)

Lemma CFRetain_source_Ok s src w :
  sources w !! s = Some src ->
  CFRetain_source s w
  = Ok tt (mkWorld (holders w)
             (<[s := with_retain_count (S (src_retain_count src)) src]>
                (sources w))
             (runloops w) (dqueues w) (trace w)).
Proof.
  intros Hs. unfold CFRetain_source, bind, get_source, set_source.
  now rewrite Hs.
Qed.

Lemma CFRelease_source_keep s src n w :
  sources w !! s = Some src -> src_retain_count src = S (S n) ->
  CFRelease_source s w
  = Ok tt (mkWorld (holders w)
             (<[s := with_retain_count (S n) src]> (sources w))
             (runloops w) (dqueues w) (trace w)).
Proof.
  intros Hs Hc. unfold CFRelease_source, bind, get_source, set_source.
  now rewrite Hs, Hc.
Qed.

Lemma CFRelease_source_last s src h w :
  sources w !! s = Some src -> src_retain_count src = 1%nat ->
  holders w !! src_info src = Some h -> ref_count h = 1 ->
  CFRelease_source s w
  = Ok tt (mkWorld (delete (src_info src) (holders w))
                   (delete s (sources w)) (runloops w) (dqueues w)
                   (trace w ++ [EvDelete (src_info src)])).
Proof.
  intros Hs Hc Hh Hrc. unfold CFRelease_source, bind, get_source.
  rewrite Hs, Hc. unfold delete_source.
  now rewrite (ctx_release_last _ _ h).
Qed.

Lemma CFRelease_runloop_Ok rl r w :
  runloops w !! rl = Some r -> (1 <= rl_retain_count r)%nat ->
  exists rls,
    CFRelease_runloop rl w
    = Ok tt (mkWorld (holders w) (sources w) rls (dqueues w) (trace w)).
Proof.
  intros Hr Hc.
  unfold CFRelease_runloop, bind, get_runloop, set_runloop, delete_runloop,
    fault.
  rewrite Hr. destruct (rl_retain_count r) as [|[|n]]; [lia| |]; eauto.
Qed.

(** *** The destructor *)

Lemma CFRunLoopSourceInvalidate_Ok self extra w h src r :
  RunLoopScheduler_wf self extra w h src r ->
  CFRunLoopSourceInvalidate (m_notify_signal self) w
  = Ok tt (mkWorld (holders w)
             (<[m_notify_signal self :=
                  mkCFRunLoopSource (m_queue self) (S extra) false
                                    (src_signaled src) []]> (sources w))
             (<[m_runloop self :=
                  mkCFRunLoop (rl_retain_count r)
                              (rl_sources0 r ∖ {[m_notify_signal self]})
                              (rl_wakeups r) (rl_current_mode r)]>
                (runloops w))
             (dqueues w) (trace w)).
Proof.
  intros [Hh Hc Hs Hi Hv Hl Hn Hr Hreg Hrc].
  unfold CFRunLoopSourceInvalidate.
  rewrite (bind_Ok _ _ _ _ _ (CFRetain_source_Ok _ _ _ Hs)).
  unfold bind at 1, get_source at 1. simpl. rewrite lookup_insert_eq.
  simpl. rewrite Hv, Hl.
  unfold bind at 1. unfold bind at 1. unfold set_source at 1. simpl.
  unfold bind at 1, CFRunLoopRemoveSource.
  unfold bind at 1, get_runloop at 1. simpl. rewrite Hr.
  rewrite bool_decide_eq_true_2 by assumption.
  unfold bind at 1, set_runloop at 1.
  erewrite CFRelease_source_keep;
    [|simpl; rewrite lookup_insert_eq; reflexivity
     |simpl; rewrite Hn; reflexivity].
  unfold ret. simpl.
  erewrite CFRelease_source_keep;
    [|simpl; rewrite lookup_insert_eq; reflexivity|reflexivity].
  simpl. rewrite !insert_insert_eq. unfold with_retain_count; simpl.
  now rewrite Hi.
Qed.

Lemma RunLoopScheduler_delete_keeps self extra w h src r :
  RunLoopScheduler_wf self (S extra) w h src r ->
  exists rls,
    RunLoopScheduler_delete self w
    = Ok tt (mkWorld (holders w)
               (<[m_notify_signal self :=
                    mkCFRunLoopSource (m_queue self) (S extra) false
                                      (src_signaled src) []]> (sources w))
               rls (dqueues w) (trace w)).
Proof.
  intros Hwf. unfold RunLoopScheduler_delete.
  rewrite (bind_Ok _ _ _ _ _ (CFRunLoopSourceInvalidate_Ok _ _ _ _ _ _ Hwf)).
  erewrite bind_Ok;
    [|eapply CFRelease_source_keep;
      [simpl; rewrite lookup_insert_eq; reflexivity|reflexivity]].
  unfold with_retain_count; simpl. rewrite insert_insert_eq.
  destruct Hwf as [_ _ _ _ _ _ _ Hr _ Hrc].
  edestruct CFRelease_runloop_Ok as [rls ->];
    [simpl; rewrite lookup_insert_eq; reflexivity|exact Hrc|].
  eauto.
Qed.

Lemma RunLoopScheduler_delete_last self w h src r :
  RunLoopScheduler_wf self 0 w h src r ->
  exists rls,
    RunLoopScheduler_delete self w
    = Ok tt (mkWorld (delete (m_queue self) (holders w))
                     (delete (m_notify_signal self) (sources w))
                     rls (dqueues w)
                     (trace w ++ [EvDelete (m_queue self)])).
Proof.
  intros Hwf. unfold RunLoopScheduler_delete.
  rewrite (bind_Ok _ _ _ _ _ (CFRunLoopSourceInvalidate_Ok _ _ _ _ _ _ Hwf)).
  destruct Hwf as [Hh Hc _ _ _ _ _ Hr _ Hrc].
  erewrite bind_Ok;
    [|eapply (CFRelease_source_last _ _ h);
      [simpl; rewrite lookup_insert_eq; reflexivity|reflexivity
      |exact Hh|exact Hc]].
  simpl. rewrite delete_insert_eq.
  edestruct CFRelease_runloop_Ok as [rls ->];
    [simpl; rewrite lookup_insert_eq; reflexivity|exact Hrc|].
  eauto.
Qed.

(** *** The run loop lets go *)

Lemma with_retain_count_same src :
  with_retain_count (src_retain_count src) src = src.
Proof. now destruct src. Qed.

Lemma CFRelease_source_times_keep s n : forall w src k,
  sources w !! s = Some src -> src_retain_count src = S (n + k) ->
  CFRelease_source_times n s w
  = Ok tt (mkWorld (holders w)
             (<[s := with_retain_count (S k) src]> (sources w))
             (runloops w) (dqueues w) (trace w)).
Proof.
  unfold CFRelease_source_times.
  induction n as [|n IH]; intros w src k Hs Hc; simpl.
  - simpl in Hc. rewrite <- Hc, with_retain_count_same, insert_id by done.
    now destruct w.
  - erewrite bind_Ok; [|eapply CFRelease_source_keep; [exact Hs|exact Hc]].
    erewrite IH; [|simpl; rewrite lookup_insert_eq; reflexivity|reflexivity].
    simpl. now rewrite insert_insert_eq.
Qed.

Lemma CFRelease_source_times_all s n : forall w src h,
  sources w !! s = Some src -> src_retain_count src = S n ->
  holders w !! src_info src = Some h -> ref_count h = 1 ->
  CFRelease_source_times (S n) s w
  = Ok tt (mkWorld (delete (src_info src) (holders w))
                   (delete s (sources w)) (runloops w) (dqueues w)
                   (trace w ++ [EvDelete (src_info src)])).
Proof.
  unfold CFRelease_source_times.
  induction n as [|n IH]; intros w src h Hs Hc Hh Hrc.
  - simpl. erewrite bind_Ok; [|eapply CFRelease_source_last; eassumption].
    reflexivity.
  - change (replicate (S (S n)) ()) with (() :: replicate (S n) ()).
    cbn [for_each].
    erewrite bind_Ok; [|eapply CFRelease_source_keep; [exact Hs|exact Hc]].
    erewrite IH;
      [|simpl; rewrite lookup_insert_eq; reflexivity|reflexivity
       |exact Hh|exact Hrc].
    simpl. now rewrite delete_insert_eq.
Qed.

(** C6: when the run loop holds further references on the source, the
    destructor invalidates the source and gives up the scheduler's
    references and nothing else: the holders are what they were, nothing
    is deleted, a signal still pending is serviced without touching them,
    and the holder of the scheduler goes only when the run loop gives up
    the last of its references. *)
Theorem destructor_leaves_queue_to_run_loop self extra w h src r :
  RunLoopScheduler_wf self (S extra) w h src r ->
  exists w1 src1,
    RunLoopScheduler_delete self w = Ok tt w1
    /\ holders w1 = holders w
    /\ trace w1 = trace w
    /\ sources w1 !! m_notify_signal self = Some src1
    /\ src_valid src1 = false
    /\ src_retain_count src1 = S extra
    /\ (exists w4,
          CFRunLoop_do_source0 (m_notify_signal self) w1 = Ok tt w4
          /\ holders w4 = holders w /\ executed w4 = executed w)
    /\ (forall n, (n <= extra)%nat ->
        exists w2,
          CFRelease_source_times n (m_notify_signal self) w1 = Ok tt w2
          /\ holders w2 = holders w)
    /\ exists w3,
         CFRelease_source_times (S extra) (m_notify_signal self) w1
         = Ok tt w3
         /\ holders w3 = delete (m_queue self) (holders w).
Proof.
  intros Hwf.
  destruct (RunLoopScheduler_delete_keeps _ _ _ _ _ _ Hwf) as [rls Hdel].
  destruct Hwf as [Hh Hc _ _ _ _ _ _ _ _].
  eexists _, _. split; [exact Hdel|]. simpl.
  rewrite lookup_insert_eq. do 5 (split; [reflexivity|]). split; [|split].
  - unfold CFRunLoop_do_source0, bind, get_source, set_source, ret; simpl.
    rewrite lookup_insert_eq; simpl.
    destruct (src_signaled src); eexists; (split; [reflexivity|]); auto.
  - intros n Hn. eexists. split.
    + eapply (CFRelease_source_times_keep _ n _ _ (extra - n));
        [simpl; rewrite lookup_insert_eq; reflexivity|simpl; lia].
    + reflexivity.
  - eexists. split.
    + eapply (CFRelease_source_times_all _ extra _ _ h);
        [simpl; rewrite lookup_insert_eq; reflexivity|reflexivity
        |exact Hh|exact Hc].
    + reflexivity.
Qed.

Section Triples.
Context {A B : Type}.
Implicit Types (P : World -> Prop) (E : World -> Prop).

Lemma triple_ret P (a : A) E : triple P (ret a) (fun _ => P) E.
Proof. intros w H. exact H. Qed.

Lemma triple_fault P (Q : A -> World -> Prop) E : triple P fault Q E.
Proof. intros w H. exact I. Qed.

Lemma triple_throw P (Q : A -> World -> Prop) e : triple P (throw e) Q P.
Proof. intros w H. exact H. Qed.

Lemma triple_bind P (m : M A) (k : A -> M B) R Q E :
  triple P m R E -> (forall a, triple (R a) (k a) Q E) ->
  triple P (bind m k) Q E.
Proof.
  intros Hm Hk w HP. unfold bind. specialize (Hm w HP).
  destruct (m w) as [a w'| |]; auto. now apply Hk.
Qed.

Lemma triple_weaken P P' (m : M A) (Q Q' : A -> World -> Prop) E :
  triple P' m Q' E -> (forall w, P w -> P' w) ->
  (forall a w, Q' a w -> Q a w) -> triple P m Q E.
Proof.
  intros Hm HP HQ w Hw. specialize (Hm w (HP w Hw)).
  destruct (m w); auto.
Qed.

End Triples.

Lemma triple_for_each {A} P (f : A -> M unit) l E :
  (forall x, triple P (f x) (fun _ => P) E) ->
  triple P (for_each f l) (fun _ => P) E.
Proof.
  intros Hf. induction l as [|x l IH]; simpl.
  - apply triple_ret.
  - eapply triple_bind; [apply Hf|]. intros ?. exact IH.
Qed.

(** A computation that only looks at the store. *)
Lemma triple_get_holder P p E :
  triple P (get_holder p) (fun h w => P w /\ holders w !! p = Some h) E.
Proof.
  intros w H. unfold get_holder. destruct (holders w !! p) eqn:Eq; auto.
Qed.

Lemma triple_get_source P p E :
  triple P (get_source p) (fun s w => P w /\ sources w !! p = Some s) E.
Proof.
  intros w H. unfold get_source. destruct (sources w !! p) eqn:Eq; auto.
Qed.

Lemma triple_get_runloop P p E :
  triple P (get_runloop p) (fun _ w => P w) E.
Proof.
  intros w H. unfold get_runloop. destruct (runloops w !! p) eqn:Eq; auto.
Qed.

Lemma triple_get_dqueue P p E :
  triple P (get_dqueue p) (fun _ w => P w) E.
Proof.
  intros w H. unfold get_dqueue. destruct (dqueues w !! p) eqn:Eq; auto.
Qed.

(** *** Properties that survive the everyday operations *)

Section HeapOnly.
Variable P : World -> Prop.
Variable E : World -> Prop.
Hypothesis HP : heap_only P.

Lemma triple_emit e : triple P (emit e) (fun _ => P) E.
Proof. intros w H. eapply HP; [| |exact H]; reflexivity. Qed.

Lemma triple_set_runloop p r : triple P (set_runloop p r) (fun _ => P) E.
Proof. intros w H. eapply HP; [| |exact H]; reflexivity. Qed.

Lemma triple_delete_runloop p : triple P (delete_runloop p) (fun _ => P) E.
Proof. intros w H. eapply HP; [| |exact H]; reflexivity. Qed.

Lemma triple_set_dqueue p q : triple P (set_dqueue p q) (fun _ => P) E.
Proof. intros w H. eapply HP; [| |exact H]; reflexivity. Qed.

Lemma triple_delete_dqueue p : triple P (delete_dqueue p) (fun _ => P) E.
Proof. intros w H. eapply HP; [| |exact H]; reflexivity. Qed.
End HeapOnly.

Lemma heap_only_and_source P s src :
  heap_only P -> heap_only (fun w => P w /\ sources w !! s = Some src).
Proof.
  intros HP w w' Hh Hs [H1 H2]. split; [now apply (HP w)|now rewrite Hs].
Qed.

Section Stable.
Variable P : World -> Prop.
Variable E : World -> Prop.
Hypothesis HP : heap_only P.
Hypothesis Hsrc : source_update_stable P.
Hypothesis Hhold : holder_update_stable P.

Lemma triple_update_source s src src' :
  src_info src' = src_info src ->
  triple (fun w => P w /\ sources w !! s = Some src)
         (set_source s src') (fun _ => P) E.
Proof. intros Hi w H. apply (Hsrc w s src src'); [apply H|apply H|exact Hi]. Qed.

Lemma triple_update_holder p h h' :
  ref_count h' = ref_count h ->
  triple (fun w => P w /\ holders w !! p = Some h)
         (set_holder p h') (fun _ => P) E.
Proof. intros Hc w H. apply (Hhold w p h h'); [apply H|apply H|exact Hc]. Qed.

Lemma triple_CFRetain_runloop rl :
  triple P (CFRetain_runloop rl) (fun _ => P) E.
Proof.
  eapply triple_bind; [apply triple_get_runloop|].
  intros r. apply triple_set_runloop; assumption.
Qed.

Lemma triple_CFRelease_runloop rl :
  triple P (CFRelease_runloop rl) (fun _ => P) E.
Proof.
  eapply triple_bind; [apply triple_get_runloop|]. intros r.
  destruct (rl_retain_count r) as [|[|n]].
  - apply triple_fault.
  - apply triple_delete_runloop; assumption.
  - apply triple_set_runloop; assumption.
Qed.

Lemma triple_CFRunLoopWakeUp rl :
  triple P (CFRunLoopWakeUp rl) (fun _ => P) E.
Proof.
  eapply triple_bind; [apply triple_get_runloop|]. intros r.
  eapply triple_bind; [apply triple_set_runloop; assumption|]. intros ?.
  apply triple_emit; assumption.
Qed.

Lemma triple_CFRunLoopCopyCurrentMode rl :
  triple P (CFRunLoopCopyCurrentMode rl) (fun _ => P) E.
Proof.
  eapply triple_bind; [apply triple_get_runloop|]. intros r.
  apply triple_ret.
Qed.

Lemma triple_CFRetain_source s :
  triple P (CFRetain_source s) (fun _ => P) E.
Proof.
  eapply triple_bind; [apply triple_get_source|]. intros src.
  now apply triple_update_source.
Qed.

Lemma triple_CFRunLoopSourceSignal s :
  triple P (CFRunLoopSourceSignal s) (fun _ => P) E.
Proof.
  eapply triple_bind; [apply triple_get_source|]. intros src.
  eapply triple_bind; [|intros ?; apply triple_emit; assumption].
  destruct (src_valid src).
  - now apply triple_update_source.
  - intros w H. apply H.
Qed.

Lemma triple_CFRunLoopAddSource rl s :
  triple P (CFRunLoopAddSource rl s) (fun _ => P) E.
Proof.
  eapply triple_bind; [apply triple_get_runloop|]. intros r.
  eapply triple_bind; [apply triple_get_source|]. intros src.
  destruct (src_valid src && _).
  - eapply triple_bind.
    + apply triple_set_runloop, heap_only_and_source, HP.
    + intros ?. now apply triple_update_source.
  - intros w H. apply H.
Qed.

Lemma triple_CFRunLoop_collect_source rl s :
  triple P (CFRunLoop_collect_source rl s) (fun _ => P) E.
Proof.
  eapply triple_bind; [apply triple_get_runloop|]. intros r.
  destruct (bool_decide _);
    [apply triple_CFRetain_source|apply triple_fault].
Qed.

Lemma triple_InvocationQueue_push p fn :
  triple P (InvocationQueue_push p fn) (fun _ => P) E.
Proof.
  eapply triple_bind; [apply triple_get_holder|]. intros h.
  eapply triple_bind; [|intros ?; apply triple_emit; assumption].
  now apply triple_update_holder.
Qed.

Lemma triple_RunLoopScheduler_invoke self fn :
  triple P (RunLoopScheduler_invoke self fn) (fun _ => P) E.
Proof.
  eapply triple_bind; [apply triple_InvocationQueue_push|]. intros ?.
  eapply triple_bind; [apply triple_CFRunLoopSourceSignal|]. intros ?.
  apply triple_CFRunLoopWakeUp.
Qed.

Lemma triple_can_invoke cur :
  triple P (RunLoopScheduler_can_invoke cur) (fun _ => P) E.
Proof.
  unfold RunLoopScheduler_can_invoke.
  destruct (pthread_main_np cur); [apply triple_ret|].
  eapply triple_bind; [apply triple_CFRunLoopCopyCurrentMode|].
  intros [mode|]; apply triple_ret.
Qed.

Lemma triple_dispatch_async q fn :
  triple P (dispatch_async q fn) (fun _ => P) E.
Proof.
  eapply triple_bind; [apply triple_get_dqueue|]. intros dq.
  eapply triple_bind; [apply triple_set_dqueue; assumption|]. intros ?.
  apply triple_emit; assumption.
Qed.

Lemma triple_dispatch_retain q :
  triple P (dispatch_retain q) (fun _ => P) E.
Proof.
  eapply triple_bind; [apply triple_get_dqueue|]. intros dq.
  apply triple_set_dqueue; assumption.
Qed.

Lemma triple_dispatch_release q :
  triple P (dispatch_release q) (fun _ => P) E.
Proof.
  eapply triple_bind; [apply triple_get_dqueue|]. intros dq.
  destruct (dq_retain_count dq) as [|[|n]].
  - apply triple_fault.
  - apply triple_delete_dqueue; assumption.
  - apply triple_set_dqueue; assumption.
Qed.

Lemma triple_dispatch_queue_get_specific q key :
  triple P (dispatch_queue_get_specific q key) (fun _ => P) E.
Proof.
  eapply triple_bind; [apply triple_get_dqueue|]. intros dq.
  apply triple_ret.
Qed.

Lemma triple_dispatch_queue_set_specific q key ctx :
  triple P (dispatch_queue_set_specific q key ctx) (fun _ => P) E.
Proof.
  eapply triple_bind; [apply triple_get_dqueue|]. intros dq.
  apply triple_set_dqueue; assumption.
Qed.

Lemma triple_is_on_thread cur self :
  triple P (DispatchQueueScheduler_is_on_thread cur self) (fun _ => P) E.
Proof.
  eapply triple_bind; [|intros marker; apply triple_ret].
  unfold dispatch_get_specific.
  destruct (current_dqueue cur);
    [apply triple_dispatch_queue_get_specific|apply triple_ret].
Qed.

Lemma triple_DispatchQueueScheduler_delete self :
  triple P (DispatchQueueScheduler_delete self) (fun _ => P) E.
Proof.
  eapply triple_bind; [apply triple_dispatch_release|]. intros ?.
  destruct (m_callback self =? nullptr); apply triple_ret.
Qed.

Lemma triple_invoke s fn : triple P (invoke s fn) (fun _ => P) E.
Proof.
  destruct s as [self|self]; simpl.
  - apply triple_RunLoopScheduler_invoke.
  - apply triple_dispatch_async.
Qed.

Lemma triple_run_task fn : triple P (run_task fn) (fun _ => P) E.
Proof.
  eapply triple_bind; [apply triple_emit; assumption|]. intros ?.
  apply triple_for_each. intros sc. apply triple_invoke.
Qed.

Lemma triple_ctx_perform info :
  triple P (ctx_perform info) (fun _ => P) E.
Proof.
  eapply triple_bind; [apply triple_get_holder|]. intros h.
  eapply triple_bind; [now apply triple_update_holder|]. intros ?.
  apply triple_for_each. intros fn. apply triple_run_task.
Qed.

Lemma triple_CFRunLoop_do_source0 s :
  triple P (CFRunLoop_do_source0 s) (fun _ => P) E.
Proof.
  eapply triple_bind; [apply triple_get_source|]. intros src.
  destruct (src_signaled src).
  - eapply triple_bind; [now apply triple_update_source|]. intros ?.
    destruct (src_valid src); [apply triple_ctx_perform|apply triple_ret].
  - intros w H. apply H.
Qed.

Lemma triple_dispatch_queue_drain_one q :
  triple P (dispatch_queue_drain_one q) (fun _ => P) E.
Proof.
  eapply triple_bind; [apply triple_get_dqueue|]. intros dq.
  destruct (dq_blocks dq) as [|block rest]; [apply triple_ret|].
  eapply triple_bind; [apply triple_set_dqueue; assumption|]. intros ?.
  apply triple_run_task.
Qed.

(** What is left once giving up a reference on the source [s] is known
    to be harmless: the destructor of a scheduler whose source is [s]. *)
Section Release.
Variable s : ptr.
Hypothesis Hrel : triple P (CFRelease_source s) (fun _ => P) E.

Lemma triple_CFRunLoopRemoveSource rl :
  triple P (CFRunLoopRemoveSource s rl) (fun _ => P) E.
Proof.
  eapply triple_bind; [apply triple_get_runloop|]. intros r.
  destruct (bool_decide _); [|apply triple_ret].
  eapply triple_bind; [apply triple_set_runloop; assumption|]. intros ?.
  exact Hrel.
Qed.

Lemma triple_CFRunLoopSourceInvalidate :
  triple P (CFRunLoopSourceInvalidate s) (fun _ => P) E.
Proof.
  eapply triple_bind; [apply triple_CFRetain_source|]. intros ?.
  eapply triple_bind; [apply triple_get_source|]. intros src.
  eapply triple_bind; [|intros ?; exact Hrel].
  destruct (src_valid src).
  - eapply triple_bind; [now apply triple_update_source|]. intros ?.
    apply triple_for_each. intros rl. apply triple_CFRunLoopRemoveSource.
  - intros w H. apply H.
Qed.

Lemma triple_RunLoopScheduler_delete self :
  m_notify_signal self = s ->
  triple P (RunLoopScheduler_delete self) (fun _ => P) E.
Proof.
  intros Hs. unfold RunLoopScheduler_delete. rewrite Hs.
  eapply triple_bind; [apply triple_CFRunLoopSourceInvalidate|].
  intros ?. eapply triple_bind; [exact Hrel|]. intros ?.
  apply triple_CFRelease_runloop.
Qed.
End Release.
End Stable.

Lemma triple_DispatchQueueScheduler_new P available queue :
  heap_only P ->
  triple P (DispatchQueueScheduler_new available queue) (fun _ => P) P.
Proof.
  intros HP. unfold DispatchQueueScheduler_new.
  eapply triple_bind.
  { instantiate (1 := fun _ => P). destruct available; [|apply triple_ret].
    eapply triple_bind.
    - unfold object_getClass. eapply triple_bind;
        [now apply triple_get_dqueue|]. intros dq. apply triple_ret.
    - intros cls. simpl.
      destruct (negb _ && negb _); [|apply triple_ret].
      eapply triple_bind.
      + unfold dispatch_queue_get_label. eapply triple_bind;
          [now apply triple_get_dqueue|]. intros dq. apply triple_ret.
      + intros label. apply triple_throw. }
  intros ?. eapply triple_bind; [now apply triple_dispatch_retain|].
  intros ?. eapply triple_bind;
    [now apply triple_dispatch_queue_get_specific|].
  intros marker. eapply triple_bind; [|intros ?; apply triple_ret].
  destruct (marker =? nullptr);
    [now apply triple_dispatch_queue_set_specific|apply triple_ret].
Qed.

(** *** A holder stays *)

Lemma holder_alive_heap_only p : heap_only (holder_alive p).
Proof. intros w w' Hh _. unfold holder_alive. now rewrite Hh. Qed.

Lemma holder_alive_set_holder p p' h' E :
  triple (holder_alive p) (set_holder p' h') (fun _ => holder_alive p) E.
Proof.
  intros w H. unfold holder_alive in *; simpl.
  destruct (decide (p' = p)) as [->|Hne].
  - rewrite lookup_insert_eq. eauto.
  - now rewrite lookup_insert_ne.
Qed.

Lemma holder_alive_set_source p s src E :
  triple (holder_alive p) (set_source s src) (fun _ => holder_alive p) E.
Proof. intros w H. exact H. Qed.

Lemma holder_alive_source_update_stable p :
  source_update_stable (holder_alive p).
Proof. intros w s src src' H _ _. exact H. Qed.

Lemma holder_alive_holder_update_stable p :
  holder_update_stable (holder_alive p).
Proof. intros w p' h h' H _ _. now apply (holder_alive_set_holder p p' h' (fun _ => True) w). Qed.

Lemma holder_alive_RunLoopScheduler_new p cur run_loop E :
  triple (holder_alive p) (RunLoopScheduler_new cur run_loop)
         (fun _ => holder_alive p) E.
Proof.
  pose proof (holder_alive_heap_only p) as HP.
  pose proof (holder_alive_source_update_stable p) as Hsrc.
  unfold RunLoopScheduler_new.
  eapply triple_bind with (R := fun _ => holder_alive p).
  { intros w H. unfold new_RefCountedInvocationQueue.
    eapply (triple_bind _ _ _ (fun _ => holder_alive p));
      [apply holder_alive_set_holder|intros ?; apply triple_ret|exact H]. }
  intros holder. eapply triple_bind; [now apply triple_CFRetain_runloop|].
  intros ?. eapply triple_bind with (R := fun _ => holder_alive p).
  { unfold CFRunLoopSourceCreate, ctx_retain, fetch_add.
    eapply triple_bind with (R := fun _ => holder_alive p).
    - eapply triple_bind; [|intros ?; apply triple_ret].
      eapply triple_bind; [apply triple_get_holder|]. intros h.
      eapply triple_bind; [|intros ?; apply triple_ret].
      eapply triple_weaken; [apply holder_alive_set_holder| |];
        [intros w H; apply H|auto].
    - intros info' w H.
      eapply (triple_bind _ _ _ (fun _ => holder_alive p));
        [apply holder_alive_set_source|intros ?; apply triple_ret|exact H]. }
  intros notify_signal.
  eapply triple_bind; [now apply triple_CFRunLoopAddSource|].
  intros ?. apply triple_ret.
Qed.

(** *** The holder invariant *)

Lemma holder_inv_heap_only : heap_only holder_inv.
Proof.
  intros w w' Hh Hs [H1 H2 H3].
  split; rewrite ?Hh, ?Hs; assumption.
Qed.

Lemma holder_inv_source_update_stable : source_update_stable holder_inv.
Proof.
  intros w s src src' [H1 H2 H3] Hs Hi.
  assert (Hold : forall s0 src0,
    <[s := src']> (sources w) !! s0 = Some src0 ->
    exists src1, sources w !! s0 = Some src1
                 /\ src_info src1 = src_info src0).
  { intros s0 src0. destruct (decide (s0 = s)) as [->|Hne].
    - rewrite lookup_insert_eq. intros [= <-]. eauto.
    - rewrite lookup_insert_ne by congruence. eauto. }
  split; simpl.
  - intros s0 src0 H0. destruct (Hold _ _ H0) as (src1 & Hl & <-). eauto.
  - intros s1 s2 src1 src2 Hl1 Hl2 He.
    destruct (Hold _ _ Hl1) as (o1 & Ho1 & E1).
    destruct (Hold _ _ Hl2) as (o2 & Ho2 & E2).
    apply (H2 s1 s2 o1 o2); congruence.
  - intros p h Hp. destruct (H3 p h Hp) as (s0 & src0 & Hl & Hinfo).
    destruct (decide (s0 = s)) as [->|Hne].
    + exists s, src'. rewrite lookup_insert_eq. split; congruence.
    + exists s0, src0. rewrite lookup_insert_ne by congruence. auto.
Qed.

Lemma holder_inv_holder_update_stable : holder_update_stable holder_inv.
Proof.
  intros w p h h' [H1 H2 H3] Hp Hc. split; simpl.
  - intros s src Hs. destruct (H1 s src Hs) as (h0 & Hh0 & Hc0).
    destruct (decide (src_info src = p)) as [He|Hne].
    + exists h'. rewrite He in *. rewrite lookup_insert_eq.
      split; congruence.
    + exists h0. rewrite lookup_insert_ne by congruence. auto.
  - exact H2.
  - intros p0 h0. destruct (decide (p0 = p)) as [->|Hne].
    + intros _. eauto.
    + rewrite lookup_insert_ne by congruence. eauto.
Qed.

(** Taking a holder and the one source that owns it out of the store. *)
Lemma holder_inv_dealloc w s src :
  holder_inv w -> sources w !! s = Some src ->
  holder_inv (mkWorld (delete (src_info src) (holders w))
                      (delete s (sources w)) (runloops w) (dqueues w)
                      (trace w ++ [EvDelete (src_info src)])).
Proof.
  intros [H1 H2 H3] Hs. split; simpl.
  - intros s0 src0 H0. apply lookup_delete_Some in H0 as [Hne H0].
    destruct (H1 s0 src0 H0) as (h0 & Hh0 & Hc0).
    exists h0. split; [|exact Hc0]. rewrite lookup_delete_ne; [exact Hh0|].
    intros He. apply Hne. symmetry. now apply (H2 s0 s src0 src).
  - intros s1 s2 src1 src2 Hl1 Hl2.
    apply lookup_delete_Some in Hl1 as [_ Hl1].
    apply lookup_delete_Some in Hl2 as [_ Hl2]. eauto.
  - intros p h Hp. apply lookup_delete_Some in Hp as [Hne Hp].
    destruct (H3 p h Hp) as (s0 & src0 & Hl & Hinfo).
    exists s0, src0. split; [|exact Hinfo].
    rewrite lookup_delete_ne; [exact Hl|]. congruence.
Qed.

Lemma holder_inv_CFRelease_source s E :
  triple holder_inv (CFRelease_source s) (fun _ => holder_inv) E.
Proof.
  intros w Hinv. unfold CFRelease_source, bind, get_source.
  destruct (sources w !! s) as [src|] eqn:Hs; [|exact I].
  destruct (src_retain_count src) as [|[|n]] eqn:Hn.
  - exact I.
  - destruct (inv_owned _ Hinv s src Hs) as (h & Hh & Hc).
    unfold delete_source.
    rewrite (ctx_release_last _ _ h) by assumption. simpl.
    now apply holder_inv_dealloc.
  - now apply (holder_inv_source_update_stable w s src).
Qed.

(** Putting a fresh holder and the fresh source that owns it in. *)
Lemma holder_inv_alloc w p h s src rls tr :
  holder_inv w -> holders w !! p = None -> sources w !! s = None ->
  ref_count h = 1 -> src_info src = p ->
  holder_inv (mkWorld (<[p := h]> (holders w)) (<[s := src]> (sources w))
                      rls (dqueues w) tr).
Proof.
  intros [H1 H2 H3] Hp Hs Hc Hi.
  assert (Hold : forall s0 src0,
    <[s := src]> (sources w) !! s0 = Some src0 ->
    (s0 = s /\ src0 = src) \/ (s0 <> s /\ sources w !! s0 = Some src0
                                /\ src_info src0 <> p)).
  { intros s0 src0. destruct (decide (s0 = s)) as [->|Hne].
    - rewrite lookup_insert_eq. intros [= <-]. auto.
    - rewrite lookup_insert_ne by congruence. intros Hl. right.
      split; [exact Hne|]. split; [exact Hl|].
      destruct (H1 s0 src0 Hl) as (h0 & Hh0 & _). congruence. }
  split; simpl.
  - intros s0 src0 H0.
    destruct (Hold _ _ H0) as [[-> ->]|(Hne & Hl & Hip)].
    + exists h. rewrite Hi, lookup_insert_eq. auto.
    + destruct (H1 s0 src0 Hl) as (h0 & Hh0 & Hc0).
      exists h0. rewrite lookup_insert_ne by congruence. auto.
  - intros s1 s2 src1 src2 Hl1 Hl2 He.
    destruct (Hold _ _ Hl1) as [[-> ->]|(Hne1 & Ho1 & Hip1)];
      destruct (Hold _ _ Hl2) as [[-> ->]|(Hne2 & Ho2 & Hip2)];
      try congruence.
    now apply (H2 s1 s2 src1 src2).
  - intros p0 h0. destruct (decide (p0 = p)) as [->|Hne].
    + intros _. exists s, src. rewrite lookup_insert_eq. auto.
    + rewrite lookup_insert_ne by congruence. intros Hp0.
      destruct (H3 p0 h0 Hp0) as (s0 & src0 & Hl & Hinfo).
      exists s0, src0. rewrite lookup_insert_ne by congruence. auto.
Qed.

Lemma fresh_ptr_fresh {V} (m : gmap Z V) : m !! fresh_ptr m = None.
Proof.
  apply not_elem_of_dom. unfold fresh_ptr.
  pose proof (is_fresh ({[nullptr]} ∪ dom m)) as H. set_solver.
Qed.

(** *** The constructor *)

Lemma RunLoopScheduler_new_result cur run_loop w :
  let rl := if run_loop =? nullptr then CFRunLoopGetCurrent cur
            else run_loop in
  let p := fresh_ptr (holders w) in
  let s := fresh_ptr (sources w) in
  match runloops w !! rl with
  | None => RunLoopScheduler_new cur run_loop w = Fault
  | Some r =>
      let added := negb (bool_decide (s ∈ rl_sources0 r)) in
      RunLoopScheduler_new cur run_loop w
      = Ok (mkRunLoopScheduler rl s p)
           (mkWorld
              (<[p := mkRefCountedInvocationQueue (mkInvocationQueue []) 1]>
                 (holders w))
              (<[s := mkCFRunLoopSource p (if added then 2 else 1) true false
                        (if added then [rl] else [])]> (sources w))
              (<[rl := mkCFRunLoop (S (rl_retain_count r))
                         (if added then {[s]} ∪ rl_sources0 r
                          else rl_sources0 r)
                         (rl_wakeups r) (rl_current_mode r)]> (runloops w))
              (dqueues w) (trace w))
  end.
Proof.
  intros rl p s.
  unfold RunLoopScheduler_new. fold rl.
  generalize rl. clear rl. intros rl. subst p s.
  unfold new_RefCountedInvocationQueue, CFRetain_runloop,
    CFRunLoopSourceCreate, ctx_retain, fetch_add, CFRunLoopAddSource,
    bind, get_runloop, get_holder, get_source, set_holder, set_source,
    set_runloop, ret; simpl.
  destruct (runloops w !! rl) as [r|] eqn:Hr; [|reflexivity].
  simpl. repeat (rewrite lookup_insert_eq; simpl).
  destruct (bool_decide (_ ∈ rl_sources0 r)); simpl;
    rewrite ?insert_insert_eq; reflexivity.
Qed.

Lemma holder_inv_RunLoopScheduler_new cur run_loop E :
  triple holder_inv (RunLoopScheduler_new cur run_loop)
         (fun _ => holder_inv) E.
Proof.
  intros w Hinv.
  pose proof (RunLoopScheduler_new_result cur run_loop w) as H.
  cbv zeta in H. destruct (runloops w !! _) as [r|]; rewrite H; [|exact I].
  apply holder_inv_alloc; auto using fresh_ptr_fresh.
Qed.

Lemma RunLoopScheduler_new_wf cur run_loop w r :
  let rl := if run_loop =? nullptr then CFRunLoopGetCurrent cur
            else run_loop in
  runloops w !! rl = Some r ->
  fresh_ptr (sources w) ∉ rl_sources0 r ->
  exists self w' h src r',
    RunLoopScheduler_new cur run_loop w = Ok self w'
    /\ m_runloop self = rl
    /\ RunLoopScheduler_wf self 0 w' h src r'.
Proof.
  intros rl Hr Hnew.
  pose proof (RunLoopScheduler_new_result cur run_loop w) as H.
  cbv zeta in H. fold rl in H. rewrite Hr in H.
  rewrite bool_decide_eq_false_2 in H by assumption. simpl in H.
  eexists _, _, _, _, _. split; [exact H|]. split; [reflexivity|].
  split; simpl; rewrite ?lookup_insert_eq; try reflexivity.
  - set_solver.
  - simpl. lia.
Qed.

Lemma holder_fate_heap_only p c s : heap_only (holder_fate p c s).
Proof.
  intros w w' Hh Hs. unfold holder_fate, holder_untouched, source_gone.
  now rewrite Hh, Hs.
Qed.

Lemma holder_fate_source_update_stable p c s :
  source_update_stable (holder_fate p c s).
Proof.
  intros w s' src src' H Hs' _.
  destruct H as [H|[Hs H]]; [left; exact H|right].
  split; [|exact H]. simpl. rewrite lookup_insert_ne; [exact Hs|congruence].
Qed.

Lemma holder_fate_holder_update_stable p c s :
  holder_update_stable (holder_fate p c s).
Proof.
  intros w p' h h' H Hp' Hc.
  destruct (decide (p' = p)) as [->|Hne].
  - destruct H as [(h0 & Hh0 & Hc0)|[Hs H]].
    + left. exists h'. simpl. rewrite lookup_insert_eq. split; congruence.
    + right. split; [exact Hs|]. simpl. rewrite lookup_insert_eq. discriminate.
  - destruct H as [(h0 & Hh0 & Hc0)|[Hs H]].
    + left. exists h0. simpl. rewrite lookup_insert_ne by congruence. auto.
    + right. split; [exact Hs|]. simpl. now rewrite lookup_insert_ne.
Qed.

Lemma holder_fate_CFRelease_source p c s E :
  triple (holder_fate p c s) (CFRelease_source s)
         (fun _ => holder_fate p c s) E.
Proof.
  intros w H. unfold CFRelease_source, bind, get_source.
  destruct (sources w !! s) as [src|] eqn:Hs; [|exact I].
  destruct H as [(h & Hh & Hc)|[Hs' _]]; [|congruence].
  destruct (src_retain_count src) as [|[|n]] eqn:Hn.
  - exact I.
  - unfold delete_source, ctx_release, fetch_add, delete_holder, bind,
      get_holder, set_holder, ret; simpl.
    destruct (holders w !! src_info src) as [h0|] eqn:Hh0; [|exact I].
    simpl. destruct (ref_count h0 =? 1) eqn:Hc1; simpl;
      rewrite ?lookup_insert_eq;
      destruct (decide (src_info src = p)) as [Hi|Hi].
    + right. split; simpl; [apply lookup_delete_eq|]. intros _.
      rewrite Hi in Hh0. apply Z.eqb_eq in Hc1. congruence.
    + left. exists h. simpl.
      rewrite lookup_delete_ne, lookup_insert_ne by congruence. auto.
    + right. split; simpl; [apply lookup_delete_eq|].
      rewrite Hi, lookup_insert_eq. discriminate.
    + left. exists h. simpl. rewrite lookup_insert_ne by congruence. auto.
  - left. exists h. auto.
Qed.

(** *** One step *)

Lemma triple_discard {A} P (m : M A) E :
  triple P m (fun _ => P) E -> triple P (discard m) (fun _ => P) E.
Proof.
  intros H. eapply triple_bind; [exact H|]. intros ?. apply triple_ret.
Qed.

Lemma triple_exec_plain P op :
  heap_only P -> source_update_stable P -> holder_update_stable P ->
  plain op = true ->
  triple P (exec op) (fun _ => P) P.
Proof.
  intros HP Hsrc Hhold Hop. destruct op; try discriminate; simpl.
  - now apply triple_discard, triple_DispatchQueueScheduler_new.
  - now apply triple_DispatchQueueScheduler_delete.
  - now apply triple_invoke.
  - now apply triple_discard, triple_can_invoke.
  - now apply triple_discard, triple_is_on_thread.
  - now apply triple_CFRunLoop_collect_source.
  - now apply triple_CFRunLoop_do_source0.
  - now apply triple_dispatch_queue_drain_one.
Qed.

Lemma step_triple P op w w' :
  triple P (exec op) (fun _ => P) P -> P w -> step op w w' -> P w'.
Proof.
  intros H Hw Hstep. specialize (H w Hw).
  destruct Hstep as [E|[e E]]; now rewrite E in H.
Qed.

Lemma holder_inv_exec op :
  triple holder_inv (exec op) (fun _ => holder_inv) holder_inv.
Proof.
  destruct (plain op) eqn:Hop.
  - apply triple_exec_plain;
      auto using holder_inv_heap_only, holder_inv_source_update_stable,
                 holder_inv_holder_update_stable.
  - destruct op; try discriminate; simpl.
    + apply triple_discard, holder_inv_RunLoopScheduler_new.
    + eapply triple_RunLoopScheduler_delete;
        eauto using holder_inv_heap_only, holder_inv_source_update_stable,
                    holder_inv_holder_update_stable,
                    holder_inv_CFRelease_source.
    + apply holder_inv_CFRelease_source.
Qed.

Lemma holder_alive_exec p op :
  releases_source op = false ->
  triple (holder_alive p) (exec op) (fun _ => holder_alive p)
         (holder_alive p).
Proof.
  intros Hrel. destruct (plain op) eqn:Hop.
  - apply triple_exec_plain;
      auto using holder_alive_heap_only, holder_alive_source_update_stable,
                 holder_alive_holder_update_stable.
  - destruct op; try discriminate; simpl.
    apply triple_discard, holder_alive_RunLoopScheduler_new.
Qed.

Lemma holder_fate_exec p c op :
  releases_source op = true ->
  exists s, triple (holder_fate p c s) (exec op)
                   (fun _ => holder_fate p c s) (holder_fate p c s).
Proof.
  intros Hrel. destruct op; try discriminate; simpl.
  - exists (m_notify_signal self).
    eapply triple_RunLoopScheduler_delete;
      eauto using holder_fate_heap_only, holder_fate_source_update_stable,
                  holder_fate_holder_update_stable,
                  holder_fate_CFRelease_source.
  - exists s. apply holder_fate_CFRelease_source.
Qed.

Lemma holder_inv_empty w :
  holders w = ∅ -> sources w = ∅ -> holder_inv w.
Proof.
  intros Hh Hs. split; intros *; rewrite ?Hh, ?Hs, ?lookup_empty;
    discriminate.
Qed.

Lemma steps_holder_inv ops : forall w w',
  holder_inv w -> steps ops w w' -> holder_inv w'.
Proof.
  induction ops as [|op ops IH]; intros w w' Hinv Hsteps;
    inversion Hsteps; subst; [assumption|].
  eapply IH; [|eassumption].
  eapply step_triple; [apply holder_inv_exec|eassumption..].
Qed.

(** C5: [retain] adds one to the count; [release] takes one off and
    deletes the holder exactly when the count it leaves is zero; and a
    step of the process after which a holder is gone gave up a reference
    on a source and found the count at 1. *)
Theorem holder_destroyed_exactly_at_zero :
  (forall p w h,
     holders w !! p = Some h ->
     exists w',
       ctx_retain p w = Ok p w'
       /\ holders w'
          = <[p := mkRefCountedInvocationQueue
                     (queue h) (to_size_t (ref_count h + 1))]> (holders w))
  /\ (forall p w h,
        holders w !! p = Some h -> 0 <= ref_count h < 2 ^ SIZE_BITS ->
        exists w',
          ctx_release p w = Ok tt w'
          /\ (to_size_t (ref_count h - 1) = 0 -> holders w' !! p = None)
          /\ (to_size_t (ref_count h - 1) <> 0 ->
              holders w' !! p
              = Some (mkRefCountedInvocationQueue
                        (queue h) (to_size_t (ref_count h - 1))))
          /\ forall p', p' <> p -> holders w' !! p' = holders w !! p')
  /\ (forall op w w' p h,
        step op w w' ->
        holders w !! p = Some h -> holders w' !! p = None ->
        releases_source op = true /\ ref_count h = 1).
Proof.
  split; [|split].
  - intros p w h Hh. eexists. split; [apply ctx_retain_Ok; exact Hh|reflexivity].
  - intros p w h Hh Hrange.
    pose proof (decremented_zero_iff _ Hrange) as Hz.
    destruct (decide (ref_count h = 1)) as [Hc|Hc].
    + eexists. split; [apply (ctx_release_last p w h); assumption|]. simpl.
      rewrite lookup_delete_eq. split; [auto|]. split; [tauto|].
      intros p' Hne. now rewrite lookup_delete_ne.
    + eexists. split; [apply (ctx_release_keep p w h); assumption|]. simpl.
      rewrite lookup_insert_eq. split; [tauto|]. split; [auto|].
      intros p' Hne. now rewrite lookup_insert_ne.
  - intros op w w' p h Hstep Hh Hgone.
    destruct (releases_source op) eqn:Hrel.
    + split; [reflexivity|].
      destruct (holder_fate_exec p (ref_count h) op Hrel) as [s Ht].
      assert (Hfate : holder_fate p (ref_count h) s w') by
        (eapply step_triple; [exact Ht|left; eexists; eauto|exact Hstep]).
      destruct Hfate as [(h' & Hh' & _)|[_ H]]; [congruence|auto].
    + assert (Halive : holder_alive p w') by
        (eapply step_triple;
         [exact (holder_alive_exec p op Hrel)|eexists; eauto|exact Hstep]).
      destruct Halive as [h' Hh']. congruence.
Qed.

(** C9, as the code has it: the one counted reference on a holder is that
    of the context of its run-loop source.  In every store reached from
    one without holders and sources, a live holder has count 1 and is the
    [info] of exactly one live source; and construction leaves the count at
    1 while the source has two references, the scheduler's and the run
    loop's for the registration. *)
Theorem holder_count_belongs_to_source_context :
  (forall ops w w',
     holders w = ∅ -> sources w = ∅ -> steps ops w w' -> holder_inv w')
  /\ (forall cur run_loop w r,
        runloops w !! (if run_loop =? nullptr then CFRunLoopGetCurrent cur
                       else run_loop) = Some r ->
        fresh_ptr (sources w) ∉ rl_sources0 r ->
        exists self w' h src r',
          RunLoopScheduler_new cur run_loop w = Ok self w'
          /\ RunLoopScheduler_wf self 0 w' h src r').
Proof.
  split.
  - intros ops w w' Hh Hs Hsteps.
    eapply steps_holder_inv; [|exact Hsteps]. now apply holder_inv_empty.
  - intros cur run_loop w r Hr Hnew.
    destruct (RunLoopScheduler_new_wf cur run_loop w r Hr Hnew)
      as (self & w' & h & src & r' & E & _ & Hwf).
    eauto 10.
Qed.

Lemma sample_construction :
  RunLoopScheduler_new sample_thread nullptr sample_world
  = Ok sample_scheduler sample_constructed.
Proof. vm_compute. reflexivity. Qed.

Lemma sample_collection :
  CFRunLoop_collect_source 100 1 sample_constructed = Ok tt sample_collected.
Proof. vm_compute. reflexivity. Qed.

Lemma sample_constructed_live :
  RunLoopScheduler_live sample_scheduler sample_constructed.
Proof. repeat split; eexists; reflexivity. Qed.

Lemma sample_collected_wf :
  RunLoopScheduler_wf sample_scheduler 1 sample_collected
    (mkRefCountedInvocationQueue (mkInvocationQueue []) 1)
    (mkCFRunLoopSource 1 3 true false [100])
    (mkCFRunLoop 2 {[ 1 ]} 0 None).
Proof.
  split; first [reflexivity | simpl; lia | simpl; set_solver].
Qed.

(** C9, as stated, fails: after construction the scheduler is alive and
    its source is registered with one run loop, yet the count is 1. *)
Lemma count_after_construction_is_not_two :
  exists self w h src,
    RunLoopScheduler_new sample_thread nullptr sample_world = Ok self w
    /\ holders w !! m_queue self = Some h
    /\ sources w !! m_notify_signal self = Some src
    /\ length (src_runloops src) = 1%nat
    /\ ref_count h = 1
    /\ ref_count h <> two_owner_count true (length (src_runloops src)).
Proof.
  eexists _, _, _, _. split; [exact sample_construction|].
  split; [reflexivity|]. split; [reflexivity|].
  split; [reflexivity|]. split; [reflexivity|]. discriminate.
Qed.

(** ** The statements on the sample store *)

Lemma drain_runs_pushed_tasks_in_order_sample :
  RunLoopScheduler_live sample_scheduler sample_constructed
  /\ holder_queue sample_scheduler sample_constructed [] 1
  /\ Forall (reenters sample_scheduler) sample_tasks
  /\ exists w1 w2,
       for_each (RunLoopScheduler_invoke sample_scheduler) sample_tasks
                sample_constructed = Ok tt w1
       /\ executed w1 = []
       /\ ctx_perform (m_queue sample_scheduler) w1 = Ok tt w2
       /\ executed w2 = [1; 3]%nat
       /\ pending (SRunLoop sample_scheduler) w2 = [MkTask 2 []].
Proof.
  assert (Hre : Forall (reenters sample_scheduler) sample_tasks)
    by (repeat constructor).
  split; [exact sample_constructed_live|].
  split; [reflexivity|]. split; [exact Hre|].
  exact (drain_runs_pushed_tasks_in_order
           sample_scheduler sample_tasks sample_constructed 1
           sample_constructed_live eq_refl Hre).
Defined.

Lemma invoke_does_not_run_the_task_sample :
  Scheduler_live (SRunLoop sample_scheduler) sample_constructed
  /\ exists w',
       invoke (SRunLoop sample_scheduler) (MkTask 3 []) sample_constructed
       = Ok tt w'
       /\ trace w' = [EvPush 1 (MkTask 3 []); EvSignal 1; EvWakeUp 100]
       /\ executed w' = []
       /\ pending (SRunLoop sample_scheduler) w' = [MkTask 3 []].
Proof.
  split; [exact sample_constructed_live|].
  exact (invoke_does_not_run_the_task
           (SRunLoop sample_scheduler) (MkTask 3 []) sample_constructed
           sample_constructed_live).
Defined.

Lemma holder_destroyed_exactly_at_zero_sample :
  holders sample_constructed !! 1
  = Some (mkRefCountedInvocationQueue (mkInvocationQueue []) 1)
  /\ 0 <= 1 < 2 ^ SIZE_BITS
  /\ exists w',
       ctx_release 1 sample_constructed = Ok tt w'
       /\ holders w' !! 1 = None.
Proof.
  assert (Hrange : 0 <= 1 < 2 ^ SIZE_BITS) by (unfold SIZE_BITS; lia).
  split; [reflexivity|]. split; [exact Hrange|].
  destruct (proj1 (proj2 holder_destroyed_exactly_at_zero)
              1 sample_constructed _ eq_refl Hrange)
    as (w' & E & Hzero & _).
  exists w'. split; [exact E|]. apply Hzero. reflexivity.
Defined.

Lemma destructor_leaves_queue_to_run_loop_sample :
  RunLoopScheduler_wf sample_scheduler 1 sample_collected
    (mkRefCountedInvocationQueue (mkInvocationQueue []) 1)
    (mkCFRunLoopSource 1 3 true false [100])
    (mkCFRunLoop 2 {[ 1 ]} 0 None)
  /\ exists w1,
       RunLoopScheduler_delete sample_scheduler sample_collected = Ok tt w1
       /\ holders w1 = holders sample_collected
       /\ exists w3,
            CFRelease_source_times 1 1 w1 = Ok tt w3
            /\ holders w3 = delete 1 (holders sample_collected).
Proof.
  split; [exact sample_collected_wf|].
  destruct (destructor_leaves_queue_to_run_loop
              sample_scheduler 0 sample_collected _ _ _ sample_collected_wf)
    as (w1 & src1 & E & Hh & _ & _ & _ & _ & _ & _ & Hlast).
  exists w1. split; [exact E|]. split; [exact Hh|]. exact Hlast.
Defined.

Lemma invoke_pushes_then_signals_and_wakes_sample :
  holders sample_constructed !! m_queue sample_scheduler
  = Some (mkRefCountedInvocationQueue (mkInvocationQueue []) 1)
  /\ sources sample_constructed !! m_notify_signal sample_scheduler
     = Some (mkCFRunLoopSource 1 2 true false [100])
  /\ runloops sample_constructed !! m_runloop sample_scheduler
     = Some (mkCFRunLoop 2 {[ 1 ]} 0 None)
  /\ exists w',
       RunLoopScheduler_invoke sample_scheduler (MkTask 3 [])
                               sample_constructed = Ok tt w'
       /\ trace w' = [EvPush 1 (MkTask 3 []); EvSignal 1; EvWakeUp 100].
Proof.
  do 3 (split; [reflexivity|]).
  destruct (invoke_pushes_then_signals_and_wakes
              sample_scheduler (MkTask 3 []) sample_constructed
              _ _ _ eq_refl eq_refl eq_refl)
    as (w' & E & Htrace & _).
  exists w'. split; [exact E|exact Htrace].
Defined.

Lemma can_invoke_main_thread_or_in_callout_sample :
  runloops sample_world !! CFRunLoopGetCurrent sample_thread
  = Some sample_runloop
  /\ exists b,
       RunLoopScheduler_can_invoke sample_thread sample_world
       = Ok b sample_world
       /\ (b = true <->
           pthread_main_np sample_thread = true
           \/ rl_current_mode sample_runloop <> None).
Proof.
  split; [reflexivity|].
  exact (can_invoke_main_thread_or_in_callout
           sample_thread sample_world sample_runloop eq_refl).
Defined.

Lemma holder_count_belongs_to_source_context_sample :
  holders sample_world = ∅
  /\ sources sample_world = ∅
  /\ steps [OpNewRunLoopScheduler sample_thread nullptr]
           sample_world sample_constructed
  /\ holder_inv sample_constructed.
Proof.
  assert (Hsteps : steps [OpNewRunLoopScheduler sample_thread nullptr]
                         sample_world sample_constructed).
  { eapply steps_cons; [|apply steps_nil].
    left. simpl. unfold discard.
    now rewrite (bind_Ok _ _ _ _ _ sample_construction). }
  split; [reflexivity|]. split; [reflexivity|]. split; [exact Hsteps|].
  exact (proj1 holder_count_belongs_to_source_context
           [OpNewRunLoopScheduler sample_thread nullptr]
           sample_world sample_constructed eq_refl eq_refl Hsteps).
Defined.

Lemma marker_is_set_once_and_decides_is_on_thread_sample :
  exists dq,
    dqueues sample_world !! 200 = Some dq
    /\ true && negb (serial_or_main dq) = false
    /\ exists w' dq',
         DispatchQueueScheduler_new true 200 sample_world
         = Ok (mkDispatchQueueScheduler 200 nullptr) w'
         /\ dqueues w' !! 200 = Some dq'
         /\ dq_specific dq' = <[c_queue_key := 200]> (dq_specific dq).
Proof.
  eexists. split; [reflexivity|]. split; [reflexivity|].
  destruct (marker_is_set_once_and_decides_is_on_thread
              true 200 sample_world _ eq_refl eq_refl)
    as (w' & dq' & E & Hq & _ & Hset & _).
  exists w', dq'. split; [exact E|]. split; [exact Hq|].
  apply Hset. reflexivity.
Defined.

(** ** More about the two schedulers *)

(** X1: a scheduler constructed without a run loop is bound to the run
    loop of the constructing thread, which is therefore on-thread; one
    constructed with a run loop is bound to that one; and a thread is
    on-thread exactly when its current run loop is the bound one. *)
Theorem RunLoopScheduler_new_binds_run_loop cur run_loop w r :
  runloops w !! (if run_loop =? nullptr then CFRunLoopGetCurrent cur
                 else run_loop) = Some r ->
  exists self w',
    RunLoopScheduler_new cur run_loop w = Ok self w'
    /\ (run_loop = nullptr -> RunLoopScheduler_is_on_thread cur self = true)
    /\ (run_loop <> nullptr -> m_runloop self = run_loop)
    /\ forall cur',
         RunLoopScheduler_is_on_thread cur' self = true
         <-> CFRunLoopGetCurrent cur' = m_runloop self.
Proof.
  intros Hr.
  pose proof (RunLoopScheduler_new_result cur run_loop w) as H.
  cbv zeta in H. rewrite Hr in H.
  eexists _, _. split; [exact H|].
  unfold RunLoopScheduler_is_on_thread; simpl. split; [|split].
  - intros ->. simpl. apply Z.eqb_refl.
  - intros Hne. apply Z.eqb_neq in Hne. now rewrite Hne.
  - intros cur'. apply Z.eqb_eq.
Qed.

Lemma union_difference_fresh (s : Z) (X : gset Z) :
  s ∉ X -> ({[s]} ∪ X) ∖ {[s]} = X.
Proof.
  intros Hs. apply set_eq. intros x.
  rewrite elem_of_difference, elem_of_union, !elem_of_singleton.
  split; [tauto|]. intros Hx. split; [auto|]. congruence.
Qed.

(** X2: constructing a run-loop scheduler and destroying it at once gives
    back the store as it was: no holder and no source is left, and the run
    loop has its retain count and its sources again; the one thing seen is
    the deletion of the holder. *)
Theorem construct_then_destroy_restores_store cur run_loop w r :
  runloops w !! (if run_loop =? nullptr then CFRunLoopGetCurrent cur
                 else run_loop) = Some r ->
  fresh_ptr (sources w) ∉ rl_sources0 r ->
  (1 <= rl_retain_count r)%nat ->
  exists self w1,
    RunLoopScheduler_new cur run_loop w = Ok self w1
    /\ RunLoopScheduler_delete self w1
       = Ok tt (mkWorld (holders w) (sources w) (runloops w) (dqueues w)
                        (trace w ++ [EvDelete (m_queue self)])).
Proof.
  intros Hr Hnew Hrc.
  pose proof (RunLoopScheduler_new_result cur run_loop w) as H.
  cbv zeta in H. rewrite Hr in H.
  rewrite bool_decide_eq_false_2 in H by assumption. simpl in H.
  remember (if run_loop =? nullptr then CFRunLoopGetCurrent cur
            else run_loop) as rl eqn:Hrl.
  eexists _, _. split; [exact H|].
  match goal with
  | |- RunLoopScheduler_delete ?self ?w1 = _ =>
      assert (Hwf : RunLoopScheduler_wf self 0 w1
                (mkRefCountedInvocationQueue (mkInvocationQueue []) 1)
                (mkCFRunLoopSource (fresh_ptr (holders w)) 2 true false [rl])
                (mkCFRunLoop (S (rl_retain_count r))
                   ({[fresh_ptr (sources w)]} ∪ rl_sources0 r)
                   (rl_wakeups r) (rl_current_mode r)))
  end.
  { split; simpl; rewrite ?lookup_insert_eq; try reflexivity.
    - set_solver.
    - simpl. lia. }
  unfold RunLoopScheduler_delete.
  rewrite (bind_Ok _ _ _ _ _ (CFRunLoopSourceInvalidate_Ok _ _ _ _ _ _ Hwf)).
  erewrite bind_Ok;
    [|eapply CFRelease_source_last;
      [simpl; rewrite lookup_insert_eq; reflexivity|reflexivity
      |simpl; rewrite lookup_insert_eq; reflexivity|reflexivity]].
  simpl.
  unfold CFRelease_runloop, bind, get_runloop, set_runloop; simpl.
  rewrite lookup_insert_eq; simpl.
  destruct (rl_retain_count r) as [|n] eqn:Hn; [lia|]. simpl.
  f_equal. f_equal.
  - apply delete_insert_id, fresh_ptr_fresh.
  - rewrite insert_insert_eq. apply delete_insert_id, fresh_ptr_fresh.
  - rewrite !insert_insert_eq.
    rewrite union_difference_fresh by assumption.
    apply insert_id. rewrite Hr, <- Hn. now destruct r.
Qed.

(** X3: when only the scheduler and the registration hold the source,
    the destructor frees the holder with whatever tasks are still queued,
    and runs none of them. *)
Theorem destroying_discards_pending_tasks self w h src r :
  RunLoopScheduler_wf self 0 w h src r ->
  pending (SRunLoop self) w = m_functions (queue h)
  /\ exists w',
       RunLoopScheduler_delete self w = Ok tt w'
       /\ holders w' = delete (m_queue self) (holders w)
       /\ sources w' = delete (m_notify_signal self) (sources w)
       /\ pending (SRunLoop self) w' = []
       /\ executed w' = executed w.
Proof.
  intros Hwf.
  destruct (RunLoopScheduler_delete_last _ _ _ _ _ Hwf) as [rls Hdel].
  destruct Hwf as [Hh _ _ _ _ _ _ _ _ _].
  split; [simpl; now rewrite Hh|].
  eexists. split; [exact Hdel|]. simpl.
  rewrite lookup_delete_eq. unfold executed; simpl.
  rewrite executed_of_app, app_nil_r. auto.
Qed.


(** X5: two schedulers constructed over one run loop are the same
    scheduler for [is_same_as], yet each has a holder and a source of its
    own, and both are live. *)
Theorem two_schedulers_on_one_run_loop cur run_loop w r :
  runloops w !! (if run_loop =? nullptr then CFRunLoopGetCurrent cur
                 else run_loop) = Some r ->
  exists a w1 b w2,
    RunLoopScheduler_new cur run_loop w = Ok a w1
    /\ RunLoopScheduler_new cur run_loop w1 = Ok b w2
    /\ is_same_as (SRunLoop a) (Some (SRunLoop b)) = true
    /\ m_queue a <> m_queue b
    /\ m_notify_signal a <> m_notify_signal b
    /\ RunLoopScheduler_live a w2
    /\ RunLoopScheduler_live b w2.
Proof.
  intros Hr.
  pose proof (RunLoopScheduler_new_result cur run_loop w) as H1.
  cbv zeta in H1. rewrite Hr in H1.
  remember (if run_loop =? nullptr then CFRunLoopGetCurrent cur
            else run_loop) as rl eqn:Hrl.
  match type of H1 with
  | _ = Ok ?a ?w1 =>
      pose proof (RunLoopScheduler_new_result cur run_loop w1) as H2
  end.
  cbv zeta in H2. rewrite <- Hrl in H2. simpl in H2.
  rewrite lookup_insert_eq in H2.
  eexists _, _, _, _. split; [exact H1|]. split; [exact H2|].
  assert (Hp : forall V (m : gmap Z V) x,
             fresh_ptr (<[fresh_ptr m := x]> m) <> fresh_ptr m).
  { intros V m x Heq.
    pose proof (fresh_ptr_fresh (<[fresh_ptr m := x]> m)) as Hf.
    rewrite Heq, lookup_insert_eq in Hf. discriminate. }
  unfold RunLoopScheduler_live, is_same_as, RunLoopScheduler_is_same_as;
    simpl.
  rewrite Z.eqb_refl.
  split; [reflexivity|]. split; [apply not_eq_sym, Hp|].
  split; [apply not_eq_sym, Hp|].
  repeat split;
    first [ rewrite lookup_insert_eq
          | rewrite lookup_insert_ne by apply Hp; rewrite lookup_insert_eq ];
    eauto.
Qed.

(** X6: [invoke] on one scheduler leaves the tasks buffered for a
    scheduler with another holder, another queue or of the other variant
    as they are. *)
Theorem invoke_leaves_other_queues a b fn w :
  Scheduler_live a w -> separate a b ->
  exists w', invoke a fn w = Ok tt w' /\ pending b w' = pending b w.
Proof.
  destruct a as [x|x]; simpl.
  - intros ([h Hh] & [src Hs] & [r Hr]) Hsep.
    eexists. split; [eapply RunLoopScheduler_invoke_Ok; eassumption|].
    destruct b as [y|y]; simpl in *; [|reflexivity].
    now rewrite lookup_insert_ne.
  - intros [dq Hq] Hsep.
    eexists. split; [eapply DispatchQueueScheduler_invoke_Ok; eassumption|].
    destruct b as [y|y]; simpl in *; [reflexivity|].
    now rewrite lookup_insert_ne.
Qed.

Lemma nonempty_app {A} (l1 l2 : list A) :
  nonempty (l1 ++ l2) = nonempty l1 || nonempty l2.
Proof. destruct l1; [reflexivity|]. reflexivity. Qed.

Lemma nonempty_map {A B} (f : A -> B) l : nonempty (map f l) = nonempty l.
Proof. now destruct l. Qed.

Lemma invoke_scheduler_state self fn w l c sig :
  scheduler_state self w l c sig ->
  exists w',
    RunLoopScheduler_invoke self fn w = Ok tt w'
    /\ scheduler_state self w' (l ++ [fn]) c true
    /\ executed w' = executed w.
Proof.
  intros (Hq & (src & Hs & Hi & Hv & Hsig) & [r Hr]).
  eexists. split; [eapply RunLoopScheduler_invoke_Ok; eassumption|].
  rewrite Hv. unfold scheduler_state, holder_queue, executed; simpl.
  rewrite !lookup_insert_eq, executed_of_app, app_nil_r.
  repeat split; eauto.
Qed.

Lemma spawn_scheduler_state self sp : forall w l c sig,
  Forall (fun sc : Scheduler * Task => sc.1 = SRunLoop self) sp ->
  scheduler_state self w l c sig ->
  exists w',
    for_each (fun sc => invoke sc.1 sc.2) sp w = Ok tt w'
    /\ scheduler_state self w' (l ++ map snd sp) c (sig || nonempty sp)
    /\ executed w' = executed w.
Proof.
  induction sp as [|[s t] sp IH]; intros w l c sig Hall Hst; simpl.
  - exists w. rewrite app_nil_r, orb_false_r. auto.
  - apply Forall_cons in Hall as [Hs Hall]. simpl in Hs. subst s.
    destruct (invoke_scheduler_state self t w l c sig Hst)
      as (w1 & E1 & Hst1 & Hex1).
    destruct (IH w1 _ c true Hall Hst1) as (w2 & E2 & Hst2 & Hex2).
    exists w2. simpl. rewrite (bind_Ok _ _ _ _ _ E1), <- app_assoc in *.
    rewrite orb_true_r, Hex2, Hex1. auto.
Qed.

Lemma run_task_scheduler_state self t w l c sig :
  reenters self t ->
  scheduler_state self w l c sig ->
  exists w',
    run_task t w = Ok tt w'
    /\ scheduler_state self w' (l ++ map snd (task_spawns t)) c
         (sig || nonempty (task_spawns t))
    /\ executed w' = executed w ++ [task_id t].
Proof.
  intros Hre Hst. unfold run_task.
  set (w0 := mkWorld (holders w) (sources w) (runloops w) (dqueues w)
                     (trace w ++ [EvRun (task_id t)])).
  destruct (spawn_scheduler_state self (task_spawns t) w0 l c sig Hre Hst)
    as (w' & E & Hst' & Hex').
  exists w'. rewrite (bind_Ok _ _ w tt w0) by reflexivity.
  repeat split; try apply Hst'; auto.
  rewrite Hex'. unfold executed, w0; simpl. now rewrite executed_of_app.
Qed.

Lemma for_each_run_task_scheduler_state self ts : forall w l c sig,
  Forall (reenters self) ts ->
  scheduler_state self w l c sig ->
  exists w',
    for_each run_task ts w = Ok tt w'
    /\ scheduler_state self w' (l ++ spawned ts) c
         (sig || nonempty (spawned ts))
    /\ executed w' = executed w ++ map task_id ts.
Proof.
  induction ts as [|t ts IH]; intros w l c sig Hall Hst; simpl.
  - exists w. unfold spawned; simpl. rewrite !app_nil_r, orb_false_r. auto.
  - apply Forall_cons in Hall as [Ht Hall].
    destruct (run_task_scheduler_state self t w l c sig Ht Hst)
      as (w1 & E1 & Hst1 & Hex1).
    destruct (IH w1 _ c _ Hall Hst1) as (w2 & E2 & Hst2 & Hex2).
    exists w2. rewrite (bind_Ok _ _ _ _ _ E1).
    unfold spawned in *; simpl.
    rewrite <- app_assoc, <- orb_assoc in Hst2.
    rewrite nonempty_app, nonempty_map, Hex2, Hex1, <- app_assoc. auto.
Qed.

(** X7: after [invoke], one pass of the run loop over the source runs
    every queued task once, in order, the new one last; the tasks these
    hand to the scheduler stay queued, and the source is left signaled
    exactly when there are such tasks, so that the next pass runs them. *)
Theorem invoke_then_service_runs_the_queue self fn w l c sig :
  scheduler_state self w l c sig ->
  Forall (reenters self) (l ++ [fn]) ->
  exists w1 w2,
    RunLoopScheduler_invoke self fn w = Ok tt w1
    /\ CFRunLoop_do_source0 (m_notify_signal self) w1 = Ok tt w2
    /\ executed w2 = executed w ++ map task_id (l ++ [fn])
    /\ scheduler_state self w2 (spawned (l ++ [fn])) c
         (nonempty (spawned (l ++ [fn]))).
Proof.
  intros Hst Hall.
  destruct (invoke_scheduler_state self fn w l c sig Hst)
    as (w1 & E1 & (Hq1 & (src1 & Hs1 & Hi1 & Hv1 & Hsig1) & Hr1) & Hex1).
  exists w1.
  unfold CFRunLoop_do_source0, bind at 1, get_source.
  rewrite Hs1, Hsig1, Hv1, Hi1.
  unfold bind at 1, set_source at 1.
  unfold ctx_perform, InvocationQueue_invoke_all.
  unfold bind at 1, get_holder at 1. simpl.
  unfold holder_queue in Hq1. rewrite Hq1. simpl.
  unfold bind at 1, set_holder at 1. simpl.
  match goal with
  | |- exists w2, _ /\ for_each run_task _ ?w0 = _ /\ _ =>
      assert (Hst0 : scheduler_state self w0 [] c false)
  end.
  { unfold scheduler_state, holder_queue; simpl.
    rewrite !lookup_insert_eq. repeat split; eauto. }
  destruct (for_each_run_task_scheduler_state
              self (l ++ [fn]) _ [] c false Hall Hst0)
    as (w2 & E2 & Hst2 & Hex2).
  exists w2. split; [exact E1|]. split; [exact E2|].
  split; [rewrite Hex2; f_equal; exact Hex1|].
  exact Hst2.
Qed.

Lemma holder_eta h :
  mkRefCountedInvocationQueue (queue h) (ref_count h) = h.
Proof. now destruct h. Qed.

(** X8: [retain] followed by [release] gives the holder back as it was,
    unless its count was zero, in which case the pair deletes it. *)
Theorem retain_then_release p w h :
  holders w !! p = Some h ->
  0 <= ref_count h < 2 ^ SIZE_BITS - 1 ->
  exists w1 w2,
    ctx_retain p w = Ok p w1
    /\ ctx_release p w1 = Ok tt w2
    /\ holders w2
       = if ref_count h =? 0 then delete p (holders w) else holders w.
Proof.
  intros Hh Hrange.
  assert (Hup : to_size_t (ref_count h + 1) = ref_count h + 1)
    by (unfold to_size_t; apply Z.mod_small; lia).
  destruct (ref_count h =? 0) eqn:Hz.
  - apply Z.eqb_eq in Hz.
    eexists _, _. split; [apply ctx_retain_Ok; exact Hh|].
    rewrite Hup. split.
    + eapply ctx_release_last;
        [simpl; rewrite lookup_insert_eq; reflexivity|simpl; lia].
    + simpl. apply delete_insert_eq.
  - apply Z.eqb_neq in Hz.
    eexists _, _. split; [apply ctx_retain_Ok; exact Hh|].
    rewrite Hup. split.
    + eapply ctx_release_keep;
        [simpl; rewrite lookup_insert_eq; reflexivity|simpl; lia].
    + simpl. rewrite insert_insert_eq.
      replace (ref_count h + 1 - 1) with (ref_count h) by lia.
      unfold to_size_t. rewrite Z.mod_small by lia.
      rewrite holder_eta. now apply insert_id.
Qed.

(** X9: the count is a [size_t]: [release] at zero wraps to the largest
    value and keeps the holder, [retain] at the largest value wraps to
    zero. *)
Theorem count_wraps_at_both_ends p w h :
  holders w !! p = Some h ->
  (ref_count h = 0 ->
   exists w',
     ctx_release p w = Ok tt w'
     /\ holders w' !! p
        = Some (mkRefCountedInvocationQueue (queue h) (2 ^ SIZE_BITS - 1)))
  /\ (ref_count h = 2 ^ SIZE_BITS - 1 ->
      exists w',
        ctx_retain p w = Ok p w'
        /\ holders w' !! p
           = Some (mkRefCountedInvocationQueue (queue h) 0)).
Proof.
  intros Hh. split; intros Hc.
  - eexists. split.
    + apply (ctx_release_keep p w h); [exact Hh|lia].
    + simpl. rewrite lookup_insert_eq, Hc. reflexivity.
  - eexists. split; [apply ctx_retain_Ok; exact Hh|].
    simpl. rewrite lookup_insert_eq, Hc. reflexivity.
Qed.

(** X10: on schedulers, [is_same_as] is reflexive, symmetric and
    transitive. *)
Theorem is_same_as_equivalence :
  (forall a, is_same_as a (Some a) = true)
  /\ (forall a b, is_same_as a (Some b) = is_same_as b (Some a))
  /\ (forall a b c,
        is_same_as a (Some b) = true -> is_same_as b (Some c) = true ->
        is_same_as a (Some c) = true).
Proof.
  split; [|split].
  - intros [x|x]; apply Z.eqb_refl.
  - intros [x|x] [y|y]; simpl; try reflexivity; apply Z.eqb_sym.
  - intros [x|x] [y|y] [z|z]; simpl;
      unfold RunLoopScheduler_is_same_as, DispatchQueueScheduler_is_same_as;
      simpl; rewrite ?Z.eqb_eq; congruence.
Qed.

(** X11: schedulers that are the same for [is_same_as] give the same
    answer to [is_on_thread], on every thread and in every store. *)
Theorem same_schedulers_agree_on_is_on_thread a b :
  is_same_as a (Some b) = true ->
  forall cur w, is_on_thread cur a w = is_on_thread cur b w.
Proof.
  destruct a as [x|x], b as [y|y]; simpl;
    unfold RunLoopScheduler_is_same_as, DispatchQueueScheduler_is_same_as;
    simpl; try discriminate; intros H%Z.eqb_eq cur w.
  - unfold RunLoopScheduler_is_on_thread. now rewrite H.
  - unfold DispatchQueueScheduler_is_on_thread. now rewrite H.
Qed.

(** X12: constructing a dispatch-queue scheduler and destroying it gives
    the queue its retain count back and leaves its blocks alone, but the
    value the constructor stored under the key stays on the queue. *)
Theorem dispatch_construct_then_destroy_keeps_marker available queue w dq :
  dqueues w !! queue = Some dq ->
  available && negb (serial_or_main dq) = false ->
  (1 <= dq_retain_count dq)%nat ->
  exists self w1,
    DispatchQueueScheduler_new available queue w = Ok self w1
    /\ DispatchQueueScheduler_delete self w1
       = Ok tt (mkWorld (holders w) (sources w) (runloops w)
                  (<[queue := mkDispatchQueue (dq_class dq) (dq_label dq)
                                (dq_retain_count dq)
                                (marked queue (dq_specific dq))
                                (dq_blocks dq)]> (dqueues w))
                  (trace w)).
Proof.
  intros Hq Hok Hrc.
  eexists _, _. split; [apply DispatchQueueScheduler_new_Ok; eassumption|].
  unfold DispatchQueueScheduler_delete, dispatch_release, bind, get_dqueue,
    set_dqueue, ret; simpl.
  rewrite lookup_insert_eq; simpl.
  destruct (dq_retain_count dq) as [|n]; [lia|]. simpl.
  now rewrite insert_insert_eq.
Qed.

(** X13: after construction over a queue, [is_on_thread] answers false to
    a caller that runs on no queue; to a caller that runs on the queue it
    answers true when the queue had no value under the key or had itself,
    and false when it carried a foreign value, which the constructor
    keeps. *)
Theorem is_on_thread_after_construction available queue w dq :
  dqueues w !! queue = Some dq ->
  available && negb (serial_or_main dq) = false ->
  queue <> nullptr ->
  exists self w',
    DispatchQueueScheduler_new available queue w = Ok self w'
    /\ (forall cur,
          current_dqueue cur = None ->
          DispatchQueueScheduler_is_on_thread cur self w' = Ok false w')
    /\ (forall cur,
          current_dqueue cur = Some queue ->
          DispatchQueueScheduler_is_on_thread cur self w'
          = Ok (let marker :=
                  default nullptr (dq_specific dq !! c_queue_key) in
                (marker =? nullptr) || (marker =? queue)) w').
Proof.
  intros Hq Hok Hnn.
  eexists _, _. split; [apply DispatchQueueScheduler_new_Ok; eassumption|].
  unfold DispatchQueueScheduler_is_on_thread, dispatch_get_specific,
    dispatch_queue_get_specific, bind, get_dqueue, ret; simpl. split.
  - intros cur ->. f_equal. now apply Z.eqb_neq.
  - intros cur ->. simpl. rewrite lookup_insert_eq; simpl. f_equal.
    unfold marked.
    destruct (default nullptr (dq_specific dq !! c_queue_key) =? nullptr)
      eqn:Hm; simpl.
    + rewrite lookup_insert_eq; simpl. apply Z.eqb_refl.
    + reflexivity.
Qed.

Lemma dispatch_invoke_blocks self fn w l :
  dqueue_blocks (m_dispatch_queue self) w l ->
  exists w',
    DispatchQueueScheduler_invoke self fn w = Ok tt w'
    /\ dqueue_blocks (m_dispatch_queue self) w' (l ++ [fn])
    /\ executed w' = executed w.
Proof.
  intros (dq & Hq & <-).
  eexists. split; [eapply DispatchQueueScheduler_invoke_Ok; eassumption|].
  unfold dqueue_blocks, executed; simpl.
  rewrite lookup_insert_eq, executed_of_app, app_nil_r. eauto.
Qed.

Lemma for_each_dispatch_invoke_blocks self ts : forall w l,
  dqueue_blocks (m_dispatch_queue self) w l ->
  exists w',
    for_each (DispatchQueueScheduler_invoke self) ts w = Ok tt w'
    /\ dqueue_blocks (m_dispatch_queue self) w' (l ++ ts)
    /\ executed w' = executed w.
Proof.
  induction ts as [|t ts IH]; intros w l Hb; simpl.
  - exists w. rewrite app_nil_r. auto.
  - destruct (dispatch_invoke_blocks self t w l Hb) as (w1 & E1 & Hb1 & Hex1).
    destruct (IH w1 _ Hb1) as (w2 & E2 & Hb2 & Hex2).
    exists w2. rewrite (bind_Ok _ _ _ _ _ E1), <- app_assoc in *.
    rewrite Hex2, Hex1. auto.
Qed.

Lemma resubmit_blocks self sp : forall w l,
  Forall (fun sc : Scheduler * Task => sc.1 = SDispatchQueue self) sp ->
  dqueue_blocks (m_dispatch_queue self) w l ->
  exists w',
    for_each (fun sc => invoke sc.1 sc.2) sp w = Ok tt w'
    /\ dqueue_blocks (m_dispatch_queue self) w' (l ++ map snd sp)
    /\ executed w' = executed w.
Proof.
  induction sp as [|[s t] sp IH]; intros w l Hall Hb; simpl.
  - exists w. rewrite app_nil_r. auto.
  - apply Forall_cons in Hall as [Hs Hall]. simpl in Hs. subst s.
    destruct (dispatch_invoke_blocks self t w l Hb) as (w1 & E1 & Hb1 & Hex1).
    destruct (IH w1 _ Hall Hb1) as (w2 & E2 & Hb2 & Hex2).
    exists w2. simpl. rewrite (bind_Ok _ _ _ _ _ E1), <- app_assoc in *.
    rewrite Hex2, Hex1. auto.
Qed.

Lemma drain_one_blocks self t w l :
  resubmits self t ->
  dqueue_blocks (m_dispatch_queue self) w (t :: l) ->
  exists w',
    dispatch_queue_drain_one (m_dispatch_queue self) w = Ok tt w'
    /\ dqueue_blocks (m_dispatch_queue self) w'
         (l ++ map snd (task_spawns t))
    /\ executed w' = executed w ++ [task_id t].
Proof.
  intros Hre (dq & Hq & Hl).
  unfold dispatch_queue_drain_one, bind at 1, get_dqueue. rewrite Hq, Hl.
  unfold bind at 1, set_dqueue, dispatch_block_invoke, run_task.
  unfold bind at 1, emit.
  match goal with
  | |- exists w', for_each _ _ ?w0 = _ /\ _ =>
      assert (Hb0 : dqueue_blocks (m_dispatch_queue self) w0 l)
  end.
  { unfold dqueue_blocks; simpl. rewrite lookup_insert_eq. eauto. }
  destruct (resubmit_blocks self (task_spawns t) _ l Hre Hb0)
    as (w' & E & Hb' & Hex').
  exists w'. split; [exact E|]. split; [exact Hb'|].
  rewrite Hex'. unfold executed; simpl. now rewrite executed_of_app.
Qed.

Lemma drain_times_blocks self ts : forall w acc,
  Forall (resubmits self) ts ->
  dqueue_blocks (m_dispatch_queue self) w (ts ++ acc) ->
  exists w',
    dispatch_queue_drain_times (length ts) (m_dispatch_queue self) w
    = Ok tt w'
    /\ dqueue_blocks (m_dispatch_queue self) w' (acc ++ spawned ts)
    /\ executed w' = executed w ++ map task_id ts.
Proof.
  unfold dispatch_queue_drain_times.
  induction ts as [|t ts IH]; intros w acc Hall Hb; simpl.
  - exists w. unfold spawned; simpl. rewrite !app_nil_r. auto.
  - apply Forall_cons in Hall as [Ht Hall].
    destruct (drain_one_blocks self t w (ts ++ acc) Ht Hb)
      as (w1 & E1 & Hb1 & Hex1).
    rewrite <- app_assoc in Hb1.
    destruct (IH w1 _ Hall Hb1) as (w2 & E2 & Hb2 & Hex2).
    exists w2. rewrite (bind_Ok _ _ _ _ _ E1).
    unfold spawned in *; simpl. rewrite <- app_assoc in Hb2.
    rewrite Hex2, Hex1, <- app_assoc. auto.
Qed.

(** X14: tasks handed to a dispatch-queue scheduler whose queue is empty
    are run by as many blocks of the queue, once each and in order; the
    tasks they hand to the scheduler wait behind them. *)
Theorem dispatch_queue_runs_tasks_in_order self ts w :
  dqueue_blocks (m_dispatch_queue self) w [] ->
  Forall (resubmits self) ts ->
  exists w1 w2,
    for_each (DispatchQueueScheduler_invoke self) ts w = Ok tt w1
    /\ executed w1 = executed w
    /\ dispatch_queue_drain_times (length ts) (m_dispatch_queue self) w1
       = Ok tt w2
    /\ executed w2 = executed w ++ map task_id ts
    /\ pending (SDispatchQueue self) w2 = spawned ts.
Proof.
  intros Hb Hall.
  destruct (for_each_dispatch_invoke_blocks self ts w [] Hb)
    as (w1 & E1 & Hb1 & Hex1).
  simpl in Hb1. rewrite <- (app_nil_r ts) in Hb1.
  destruct (drain_times_blocks self ts w1 [] Hall Hb1)
    as (w2 & E2 & (dq & Hq & Hl) & Hex2).
  exists w1, w2. rewrite Hex2, Hex1. repeat split; auto.
  simpl. now rewrite Hq.
Qed.

(** ** These statements on the sample store *)


Lemma sample_pending_wf :
  RunLoopScheduler_wf sample_scheduler 0 sample_pending
    (mkRefCountedInvocationQueue (mkInvocationQueue [MkTask 3 []]) 1)
    (mkCFRunLoopSource 1 2 true true [100])
    (mkCFRunLoop 2 {[ 1 ]} 1 None).
Proof.
  split; first [reflexivity | simpl; lia | simpl; set_solver].
Qed.

Lemma sample_constructed_state :
  scheduler_state sample_scheduler sample_constructed [] 1 false.
Proof.
  split; [reflexivity|]. split; [|eexists; reflexivity].
  eexists. repeat split; reflexivity.
Qed.

Lemma RunLoopScheduler_new_binds_run_loop_sample :
  runloops sample_world !! CFRunLoopGetCurrent sample_thread
  = Some sample_runloop
  /\ exists self w',
       RunLoopScheduler_new sample_thread nullptr sample_world = Ok self w'
       /\ RunLoopScheduler_is_on_thread sample_thread self = true.
Proof.
  split; [reflexivity|].
  destruct (RunLoopScheduler_new_binds_run_loop
              sample_thread nullptr sample_world sample_runloop eq_refl)
    as (self & w' & E & Hon & _).
  exists self, w'. split; [exact E|]. apply Hon. reflexivity.
Defined.

Lemma construct_then_destroy_restores_store_sample :
  runloops sample_world !! CFRunLoopGetCurrent sample_thread
  = Some sample_runloop
  /\ (fresh_ptr (sources sample_world) ∉ rl_sources0 sample_runloop)
  /\ (1 <= rl_retain_count sample_runloop)%nat
  /\ exists self w1,
       RunLoopScheduler_new sample_thread nullptr sample_world = Ok self w1
       /\ RunLoopScheduler_delete self w1
          = Ok tt (mkWorld (holders sample_world) (sources sample_world)
                     (runloops sample_world) (dqueues sample_world)
                     [EvDelete (m_queue self)]).
Proof.
  assert (Hnew : fresh_ptr (sources sample_world)
                 ∉ rl_sources0 sample_runloop) by (simpl; set_solver).
  assert (Hrc : (1 <= rl_retain_count sample_runloop)%nat) by (simpl; lia).
  split; [reflexivity|]. split; [exact Hnew|]. split; [exact Hrc|].
  exact (construct_then_destroy_restores_store
           sample_thread nullptr sample_world sample_runloop
           eq_refl Hnew Hrc).
Defined.

Lemma destroying_discards_pending_tasks_sample :
  RunLoopScheduler_wf sample_scheduler 0 sample_pending
    (mkRefCountedInvocationQueue (mkInvocationQueue [MkTask 3 []]) 1)
    (mkCFRunLoopSource 1 2 true true [100])
    (mkCFRunLoop 2 {[ 1 ]} 1 None)
  /\ pending (SRunLoop sample_scheduler) sample_pending = [MkTask 3 []]
  /\ exists w',
       RunLoopScheduler_delete sample_scheduler sample_pending = Ok tt w'
       /\ pending (SRunLoop sample_scheduler) w' = []
       /\ executed w' = [].
Proof.
  split; [exact sample_pending_wf|].
  destruct (destroying_discards_pending_tasks
              sample_scheduler sample_pending _ _ _ sample_pending_wf)
    as (Hp & w' & E & _ & _ & Hq & Hex).
  split; [exact Hp|]. exists w'. split; [exact E|]. split; [exact Hq|].
  exact Hex.
Defined.


Lemma two_schedulers_on_one_run_loop_sample :
  runloops sample_world !! CFRunLoopGetCurrent sample_thread
  = Some sample_runloop
  /\ exists a w1 b w2,
       RunLoopScheduler_new sample_thread nullptr sample_world = Ok a w1
       /\ RunLoopScheduler_new sample_thread nullptr w1 = Ok b w2
       /\ is_same_as (SRunLoop a) (Some (SRunLoop b)) = true
       /\ m_queue a <> m_queue b.
Proof.
  split; [reflexivity|].
  destruct (two_schedulers_on_one_run_loop
              sample_thread nullptr sample_world sample_runloop eq_refl)
    as (a & w1 & b & w2 & E1 & E2 & Hsame & Hq & _).
  exists a, w1, b, w2. auto.
Defined.

Lemma invoke_leaves_other_queues_sample :
  Scheduler_live (SRunLoop sample_scheduler) sample_constructed
  /\ separate (SRunLoop sample_scheduler)
              (SDispatchQueue sample_dispatch_scheduler)
  /\ exists w',
       invoke (SRunLoop sample_scheduler) (MkTask 3 []) sample_constructed
       = Ok tt w'
       /\ pending (SDispatchQueue sample_dispatch_scheduler) w' = [].
Proof.
  split; [exact sample_constructed_live|]. split; [exact I|].
  exact (invoke_leaves_other_queues
           (SRunLoop sample_scheduler)
           (SDispatchQueue sample_dispatch_scheduler)
           (MkTask 3 []) sample_constructed sample_constructed_live I).
Defined.

Lemma invoke_then_service_runs_the_queue_sample :
  scheduler_state sample_scheduler sample_constructed [] 1 false
  /\ Forall (reenters sample_scheduler)
            ([] ++ [MkTask 1 [(SRunLoop sample_scheduler, MkTask 2 [])]])
  /\ exists w1 w2,
       RunLoopScheduler_invoke sample_scheduler
         (MkTask 1 [(SRunLoop sample_scheduler, MkTask 2 [])])
         sample_constructed = Ok tt w1
       /\ CFRunLoop_do_source0 (m_notify_signal sample_scheduler) w1
          = Ok tt w2
       /\ executed w2 = [1%nat]
       /\ scheduler_state sample_scheduler w2 [MkTask 2 []] 1 true.
Proof.
  assert (Hre : Forall (reenters sample_scheduler)
                  ([] ++ [MkTask 1 [(SRunLoop sample_scheduler,
                                     MkTask 2 [])]]))
    by (repeat constructor).
  split; [exact sample_constructed_state|]. split; [exact Hre|].
  exact (invoke_then_service_runs_the_queue
           sample_scheduler
           (MkTask 1 [(SRunLoop sample_scheduler, MkTask 2 [])])
           sample_constructed [] 1 false sample_constructed_state Hre).
Defined.

Lemma retain_then_release_sample :
  holders sample_constructed !! 1
  = Some (mkRefCountedInvocationQueue (mkInvocationQueue []) 1)
  /\ 0 <= 1 < 2 ^ SIZE_BITS - 1
  /\ exists w1 w2,
       ctx_retain 1 sample_constructed = Ok 1 w1
       /\ ctx_release 1 w1 = Ok tt w2
       /\ holders w2 = holders sample_constructed.
Proof.
  assert (Hrange : 0 <= 1 < 2 ^ SIZE_BITS - 1) by (unfold SIZE_BITS; lia).
  split; [reflexivity|]. split; [exact Hrange|].
  exact (retain_then_release 1 sample_constructed _ eq_refl Hrange).
Defined.

Lemma count_wraps_at_both_ends_sample :
  holders sample_unretained !! 7
  = Some (mkRefCountedInvocationQueue (mkInvocationQueue []) 0)
  /\ exists w',
       ctx_release 7 sample_unretained = Ok tt w'
       /\ holders w' !! 7
          = Some (mkRefCountedInvocationQueue (mkInvocationQueue [])
                                              (2 ^ SIZE_BITS - 1)).
Proof.
  split; [reflexivity|].
  exact (proj1 (count_wraps_at_both_ends 7 sample_unretained _ eq_refl)
               eq_refl).
Defined.

Lemma is_same_as_equivalence_sample :
  is_same_as (SRunLoop sample_scheduler)
             (Some (SRunLoop (mkRunLoopScheduler 100 2 2))) = true
  /\ is_same_as (SRunLoop (mkRunLoopScheduler 100 2 2))
                (Some (SRunLoop (mkRunLoopScheduler 100 3 3))) = true
  /\ is_same_as (SRunLoop sample_scheduler)
                (Some (SRunLoop (mkRunLoopScheduler 100 3 3))) = true.
Proof.
  split; [reflexivity|]. split; [reflexivity|].
  exact (proj2 (proj2 is_same_as_equivalence)
           (SRunLoop sample_scheduler)
           (SRunLoop (mkRunLoopScheduler 100 2 2))
           (SRunLoop (mkRunLoopScheduler 100 3 3)) eq_refl eq_refl).
Defined.

Lemma same_schedulers_agree_on_is_on_thread_sample :
  is_same_as (SRunLoop sample_scheduler)
             (Some (SRunLoop (mkRunLoopScheduler 100 2 2))) = true
  /\ is_on_thread sample_thread (SRunLoop sample_scheduler) sample_world
     = is_on_thread sample_thread (SRunLoop (mkRunLoopScheduler 100 2 2))
                    sample_world.
Proof.
  split; [reflexivity|].
  exact (same_schedulers_agree_on_is_on_thread
           (SRunLoop sample_scheduler)
           (SRunLoop (mkRunLoopScheduler 100 2 2)) eq_refl
           sample_thread sample_world).
Defined.

Lemma dispatch_construct_then_destroy_keeps_marker_sample :
  exists dq,
    dqueues sample_world !! 200 = Some dq
    /\ true && negb (serial_or_main dq) = false
    /\ (1 <= dq_retain_count dq)%nat
    /\ exists self w1 w2 dq2,
         DispatchQueueScheduler_new true 200 sample_world = Ok self w1
         /\ DispatchQueueScheduler_delete self w1 = Ok tt w2
         /\ dqueues w2 !! 200 = Some dq2
         /\ dq_retain_count dq2 = dq_retain_count dq
         /\ dq_specific dq2 !! c_queue_key = Some 200.
Proof.
  eexists. split; [reflexivity|]. split; [reflexivity|].
  assert (Hrc : (1 <= 1)%nat) by lia. split; [exact Hrc|].
  destruct (dispatch_construct_then_destroy_keeps_marker
              true 200 sample_world _ eq_refl eq_refl Hrc)
    as (self & w1 & E1 & E2).
  eexists self, w1, _, _. split; [exact E1|]. split; [exact E2|].
  split; [simpl; apply lookup_insert_eq|]. split; reflexivity.
Defined.

Lemma is_on_thread_after_construction_sample :
  exists dq,
    dqueues sample_world !! 200 = Some dq
    /\ true && negb (serial_or_main dq) = false
    /\ 200 <> nullptr
    /\ exists self w',
         DispatchQueueScheduler_new true 200 sample_world = Ok self w'
         /\ DispatchQueueScheduler_is_on_thread
              (mkThreadCtx false 100 (Some 200)) self w' = Ok true w'
         /\ DispatchQueueScheduler_is_on_thread sample_thread self w'
            = Ok false w'.
Proof.
  eexists. split; [reflexivity|]. split; [reflexivity|].
  assert (Hnn : 200 <> nullptr) by discriminate. split; [exact Hnn|].
  destruct (is_on_thread_after_construction
              true 200 sample_world _ eq_refl eq_refl Hnn)
    as (self & w' & E & Hoff & Hon).
  exists self, w'. split; [exact E|]. split.
  - exact (Hon (mkThreadCtx false 100 (Some 200)) eq_refl).
  - exact (Hoff sample_thread eq_refl).
Defined.

Lemma dispatch_queue_runs_tasks_in_order_sample :
  dqueue_blocks (m_dispatch_queue sample_dispatch_scheduler) sample_world []
  /\ Forall (resubmits sample_dispatch_scheduler) sample_dispatch_tasks
  /\ exists w1 w2,
       for_each (DispatchQueueScheduler_invoke sample_dispatch_scheduler)
                sample_dispatch_tasks sample_world = Ok tt w1
       /\ executed w1 = []
       /\ dispatch_queue_drain_times 2 200 w1 = Ok tt w2
       /\ executed w2 = [1; 3]%nat
       /\ pending (SDispatchQueue sample_dispatch_scheduler) w2
          = [MkTask 2 []].
Proof.
  assert (Hb : dqueue_blocks (m_dispatch_queue sample_dispatch_scheduler)
                             sample_world [])
    by (eexists; split; reflexivity).
  assert (Hre : Forall (resubmits sample_dispatch_scheduler)
                       sample_dispatch_tasks) by (repeat constructor).
  split; [exact Hb|]. split; [exact Hre|].
  exact (dispatch_queue_runs_tasks_in_order
           sample_dispatch_scheduler sample_dispatch_tasks sample_world
           Hb Hre).
Defined.
